(** * MusicApp: melodic-contour extraction and contour search

    A shallow embedding of the contour pipeline of the MusicApp backend
    ([backend/main.py], [backend/ingest.py]) together with the properties
    its specification states about it.

    - Python exceptions are values of an error monad ([Py.result]).
    - MIDI note numbers are [Z]; audio pitches are binary64 floats, the
      type numpy computes with, modelled by Rocq's primitive floats.
    - The libraries the backend calls (mido, librosa, the MongoDB server)
      are not part of the repository; they enter as inputs ([MidiFile]),
      as an interface ([Librosa]) or as a small model of the one feature
      used (a case-insensitive [$regex] over an escaped literal).
    - The file system belongs to the operating system: a program reads
      it ([FileSystem]) and changes it through operations that may raise
      ([Os]). *)

From Stdlib Require Import ZArith String Ascii Bool Arith Lia List.
From Stdlib Require Import Floats Permutation.
Import ListNotations.

Set Warnings "-inexact-float".

(* ================================================================== *)
(** * Part I: the program *)
(* ================================================================== *)

(** ** Python runtime: exceptions, loops, indexing *)

Module Py.

Inductive exn : Type :=
| FileNotFoundError
| OSError
| ValueError
| IndexError
| OperationFailure
| Exception (msg : string).

Inductive result (A : Type) : Type :=
| Ok (a : A)
| Raise (e : exn).
Arguments Ok {A} a.
Arguments Raise {A} e.

Definition bind {A B : Type} (c : result A) (k : A -> result B) : result B :=
  match c with
  | Ok a => k a
  | Raise e => Raise e
  end.

(** [try: body / except Exception: handler] *)
Definition try_except {A : Type} (body : result A) (handler : exn -> A) : A :=
  match body with
  | Ok a => a
  | Raise e => handler e
  end.

(** [for x in xs: s = body(s, x)], stopping at the first exception. *)
Fixpoint for_in {S A : Type} (xs : list A) (body : S -> A -> result S) (s : S)
  : result S :=
  match xs with
  | [] => Ok s
  | x :: xs' => bind (body s x) (for_in xs' body)
  end.

(** [range(a, b)] *)
Definition range (a b : nat) : list nat := seq a (b - a).

(** [l[i]] for a non-negative index. *)
Definition getitem {A : Type} (l : list A) (i : nat) : result A :=
  match nth_error l i with
  | Some x => Ok x
  | None => Raise IndexError
  end.

(** [l[-1]] *)
Definition getitem_last {A : Type} (l : list A) : result A :=
  match l with
  | [] => Raise IndexError
  | x :: l' => Ok (last l' x)
  end.

(** [not l] on a list *)
Definition is_empty {A : Type} (l : list A) : bool :=
  match l with
  | [] => true
  | _ :: _ => false
  end.

(** [str.join] on the empty separator *)
Definition join (parts : list string) : string :=
  String.concat EmptyString parts.

(** [os.path.join(a, b)] on POSIX, for a directory [a] that does not end
    with a slash: an absolute [b] replaces [a]. *)
Definition path_join (a b : string) : string :=
  match b with
  | String "/" _ => b
  | _ => (a ++ "/" ++ b)%string
  end.

(** [max(xs, key=key)]: the first item is the candidate, a later item
    replaces it only when its key is strictly greater; [ValueError] on an
    empty sequence. *)
Definition max_pick {A : Type} (key : A -> nat) (best item : A) : A :=
  if key best <? key item then item else best.

Definition max_by {A : Type} (key : A -> nat) (xs : list A) : result A :=
  match xs with
  | [] => Raise ValueError
  | x :: rest => Ok (fold_left (max_pick key) rest x)
  end.

End Py.
Import Py.

Declare Scope py_scope.
Delimit Scope py_scope with py.
Notation "x <- c ;; k" := (Py.bind c (fun x => k))
  (at level 61, c at next level, right associativity) : py_scope.
Open Scope py_scope.

(** ** Pitches

    The encoder only applies [>] and [<] to its elements; [Pitch] is that
    interface, with the two element types the backend uses. *)

Class Pitch (P : Type) : Type := {
  pitch_gt : P -> P -> bool;    (* [a > b] *)
  pitch_lt : P -> P -> bool     (* [a < b] *)
}.

#[export] Instance Pitch_Z : Pitch Z := {|
  pitch_gt a b := Z.ltb b a;
  pitch_lt a b := Z.ltb a b
|}.

#[export] Instance Pitch_float : Pitch float := {|
  pitch_gt a b := PrimFloat.ltb b a;
  pitch_lt a b := PrimFloat.ltb a b
|}.

(** ** backend/ingest.py: melody extraction from a MIDI file *)

Module ingest.

(** A mido message, as far as [midi_to_contour] reads it: its [type], and
    [note] and [velocity] of the note messages. *)
Inductive Message : Type :=
| note_on (note velocity : Z)
| note_off (note velocity : Z)
| other_message (type : string).

Definition MidiTrack : Type := list Message.

Record MidiFile : Type := { tracks : list MidiTrack }.

(** [msg.type == 'note_on'] *)
Definition is_note_on (msg : Message) : bool :=
  match msg with
  | note_on _ _ => true
  | _ => false
  end.

(** [len([msg for msg in t if msg.type == 'note_on'])] *)
Definition note_on_count (t : MidiTrack) : nat :=
  length (filter is_note_on t).

(** [if msg.type == 'note_on' and msg.velocity > 0: notes.append(msg.note)] *)
Definition collect_step (notes : list Z) (msg : Message) : list Z :=
  match msg with
  | note_on note velocity =>
      if (0 <? velocity)%Z then notes ++ [note] else notes
  | _ => notes
  end.

Definition collect_notes (melody_track : MidiTrack) : list Z :=
  fold_left collect_step melody_track [].

(** The encoding loop written out in [midi_to_contour]. *)
Definition contour_step (notes : list Z) (contour : list string) (i : nat)
  : result (list string) :=
  cur <- getitem notes i ;;
  prev <- getitem notes (i - 1) ;;
  if (prev <? cur)%Z then Ok (contour ++ ["U"%string])
  else if (cur <? prev)%Z then Ok (contour ++ ["D"%string])
  else Ok (contour ++ ["R"%string]).

(** The [try] block; [parsed] is the outcome of [mido.MidiFile(midi_path)]. *)
Definition midi_to_contour_body (parsed : result MidiFile)
  : result (option string) :=
  mid <- parsed ;;
  melody_track <- max_by note_on_count (tracks mid) ;;
  let notes := collect_notes melody_track in
  if length notes <? 2 then Ok None
  else
    contour <- for_in (range 1 (length notes)) (contour_step notes) ["*"%string] ;;
    Ok (Some (join contour)).

Definition midi_to_contour (parsed : result MidiFile) : option string :=
  try_except (midi_to_contour_body parsed) (fun _ => None).

End ingest.

(** ** The corpus store: documents and the one query the backend issues *)

Module database.

Inductive DocId : Type :=
| ObjectId (hex : string)
| IdString (s : string).

Record Document : Type := {
  _id : DocId;
  title : string;
  composer : string;
  melodic_contour : string;
  lilypond_path : string
}.

(** The collection, in its natural iteration order. *)
Definition Collection : Type := list Document.

(** [re.escape]: a backslash before each character of
    [()[]{}?*+-|^$\.&~# \t\n\r\v\f]. *)
Definition re_special (c : ascii) : bool :=
  existsb (Ascii.eqb c) (list_ascii_of_string "()[]{}?*+-|^$\.&~# ")
  || existsb (Nat.eqb (nat_of_ascii c)) [9; 10; 11; 12; 13].

Fixpoint re_escape (pattern : string) : string :=
  match pattern with
  | EmptyString => EmptyString
  | String c rest =>
      if re_special c then String "\" (String c (re_escape rest))
      else String c (re_escape rest)
  end.

(** *** The regular-expression engine, on literal patterns

    The engine is the database server's (PCRE), an external program.  Of
    its pattern language only what [re.escape] can produce is
    interpreted: a sequence of plain characters and of backslash-escaped
    non-alphanumeric characters, each standing for itself.
    [regex_literal] returns the text such a pattern stands for, and
    [None] for any other pattern; [find_regex_i] reports those as an
    [OperationFailure].  Letter case is folded on ASCII letters. *)

Definition pcre_meta (c : ascii) : bool :=
  existsb (Ascii.eqb c) (list_ascii_of_string "\^$.[|()?*+{").

Definition in_range (lo hi : nat) (c : ascii) : bool :=
  (lo <=? nat_of_ascii c) && (nat_of_ascii c <=? hi).

Definition is_upper (c : ascii) : bool := in_range 65 90 c.
Definition is_lower (c : ascii) : bool := in_range 97 122 c.
Definition is_digit (c : ascii) : bool := in_range 48 57 c.
Definition is_alnum (c : ascii) : bool := is_upper c || is_lower c || is_digit c.

Fixpoint regex_literal (pattern : string) : option string :=
  match pattern with
  | EmptyString => Some EmptyString
  | String c rest =>
      if Ascii.eqb c "\" then
        match rest with
        | EmptyString => None
        | String c' rest' =>
            if is_alnum c' then None
            else option_map (String c') (regex_literal rest')
        end
      else if pcre_meta c then None
      else option_map (String c) (regex_literal rest)
  end.

(** Caseless comparison of two characters (option [i]), on ASCII letters. *)
Definition to_lower (c : ascii) : ascii :=
  if is_upper c then ascii_of_nat (nat_of_ascii c + 32) else c.

Definition caseless_eqb (a b : ascii) : bool :=
  Ascii.eqb (to_lower a) (to_lower b).

(** The literal matches at the start of the subject. *)
Fixpoint match_here (literal subject : string) : bool :=
  match literal, subject with
  | EmptyString, _ => true
  | String _ _, EmptyString => false
  | String a literal', String b subject' =>
      caseless_eqb a b && match_here literal' subject'
  end.

(** An unanchored search: the literal matches at some offset. *)
Fixpoint regex_search_i (literal subject : string) : bool :=
  match_here literal subject
  || match subject with
     | EmptyString => false
     | String _ subject' => regex_search_i literal subject'
     end.

(** [collection.find({"melodic_contour": {"$regex": pattern, "$options": "i"}})] *)
Definition find_regex_i (db : Collection) (pattern : string)
  : result (list Document) :=
  match regex_literal pattern with
  | Some literal =>
      Ok (filter (fun doc => regex_search_i literal (melodic_contour doc)) db)
  | None => Raise OperationFailure
  end.

(** [cursor.limit(n)]; a limit of 0 is no limit. *)
Definition limit (n : nat) (cursor : list Document) : list Document :=
  if n =? 0 then cursor else firstn n cursor.

End database.
Import database.

(** ** backend/main.py: the encoder, the audio pipeline, the endpoints *)

Module main.

(** The body of the loop of [notes_to_contour], at index [i]. *)
Definition contour_step {P : Type} `{Pitch P} (notes : list P)
    (contour : list string) (i : nat) : result (list string) :=
  cur <- getitem notes i ;;
  prev <- getitem notes (i - 1) ;;
  if pitch_gt cur prev then Ok (contour ++ ["U"%string])
  else if pitch_lt cur prev then Ok (contour ++ ["D"%string])
  else Ok (contour ++ ["R"%string]).

Definition notes_to_contour {P : Type} `{Pitch P} (notes : list P)
  : result (option string) :=
  if length notes <? 2 then Ok None
  else
    contour <- for_in (range 1 (length notes)) (contour_step notes) ["*"%string] ;;
    Ok (Some (join contour)).

(** *** Audio: librosa and the file system

    librosa is an external library: [load] decodes the bytes of a file
    (resampled to 22050 Hz, mono) or raises; [piptrack] returns the pitch
    and magnitude matrices, indexed [bin, frame]; [hz_to_midi] maps a
    frequency to a fractional MIDI note number. *)

(** numpy holds the two matrices in single precision; every such value
    is a binary64 float as well, and [pitch > 0] and the conversion by
    [hz_to_midi], whose result is a binary64 float, read it as one. *)
Record Piptrack : Type := {
  n_bins : nat;                        (* [pitches.shape[0]] *)
  n_frames : nat;                      (* [pitches.shape[1]] *)
  pitches : nat -> nat -> float;
  magnitudes : nat -> nat -> float
}.

Class Librosa : Type := {
  waveform : Type;
  load : list Byte.byte -> result waveform;
  piptrack : waveform -> result Piptrack;
  hz_to_midi : float -> float
}.

(** What a program can read of the file system: the bytes behind each
    path string, [None] where the string names no file that can be read.
    Several strings may name one file; nothing here relates the entries
    of different strings. *)
Definition FileSystem : Type := string -> option (list Byte.byte).

Definition path_exists (fs : FileSystem) (path : string) : bool :=
  match fs path with
  | Some _ => true
  | None => false
  end.

Definition getsize (fs : FileSystem) (path : string) : result nat :=
  match fs path with
  | Some contents => Ok (length contents)
  | None => Raise OSError
  end.

(** [a[:, t].argmax()]: numpy scans from index 0 and moves to a later
    item when it is not [<=] the current maximum, stopping at a NaN;
    [ValueError] on an empty column. *)
Fixpoint argmax_scan (best : float) (best_i i : nat) (xs : list float) : nat :=
  match xs with
  | [] => best_i
  | x :: xs' =>
      if negb (x <=? best)%float then
        if is_nan x then i else argmax_scan x i (S i) xs'
      else argmax_scan best best_i (S i) xs'
  end.

Definition argmax (column : list float) : result nat :=
  match column with
  | [] => Raise ValueError
  | x :: xs => Ok (if is_nan x then 0 else argmax_scan x 0 1 xs)
  end.

Definition column (m : nat -> nat -> float) (bins t : nat) : list float :=
  map (fun k => m k t) (seq 0 bins).

(** [if not notes or abs(midi_note - notes[-1]) > 0.5: notes.append(midi_note)] *)
Definition append_if_new (notes : list float) (midi_note : float)
  : result (list float) :=
  if is_empty notes then Ok (notes ++ [midi_note])
  else
    last_note <- getitem_last notes ;;
    if (0.5 <? abs (midi_note - last_note))%float then Ok (notes ++ [midi_note])
    else Ok notes.

(** The segmentation of a stream of per-frame MIDI pitches. *)
Definition segment (frame_pitches : list float) : result (list float) :=
  for_in frame_pitches append_if_new [].

(** The body of the frame loop of [audio_to_contour], at frame [t]. *)
Definition frame_step `{L : Librosa} (pt : Piptrack) (notes : list float) (t : nat)
  : result (list float) :=
  index <- argmax (column (magnitudes pt) (n_bins pt) t) ;;
  let pitch := pitches pt index t in
  if (0 <? pitch)%float then append_if_new notes (hz_to_midi pitch)
  else Ok notes.

(** The [try] block of [audio_to_contour]. *)
Definition audio_to_contour_body `{L : Librosa} (fs : FileSystem) (file_path : string)
  : result (option string) :=
  if negb (path_exists fs file_path) then Raise FileNotFoundError
  else
    file_size <- match getsize fs file_path with
                 | Raise OSError => Ok 0
                 | r => r
                 end ;;
    if file_size =? 0 then Raise ValueError
    else
      contents <- match fs file_path with
                  | Some contents => Ok contents
                  | None => Raise FileNotFoundError
                  end ;;
      y <- load contents ;;
      pt <- piptrack y ;;
      notes <- for_in (range 0 (n_frames pt)) (frame_step pt) [] ;;
      notes_to_contour notes.

Definition audio_to_contour `{L : Librosa} (fs : FileSystem) (file_path : string)
  : option string :=
  try_except (audio_to_contour_body fs file_path) (fun _ => None).

(** *** The two search endpoints *)

(** [doc["_id"] = str(doc["_id"])] *)
Definition serialize_doc (doc : Document) : Document :=
  {| _id := IdString (match _id doc with ObjectId hex => hex | IdString s => s end);
     title := title doc;
     composer := composer doc;
     melodic_contour := melodic_contour doc;
     lilypond_path := lilypond_path doc |}.

Record ParsonsResponse : Type := {
  query : string;
  results : list Document
}.

Definition search_by_parsons (db : Collection) (query : string)
  : result ParsonsResponse :=
  let escaped_query := re_escape query in
  results_cursor <- find_regex_i db escaped_query ;;
  let results_list := map serialize_doc (limit 20 results_cursor) in
  Ok {| query := query; results := results_list |}.

Record UploadFile : Type := {
  filename : string;
  read : result (list Byte.byte)       (* the outcome of [await file.read()] *)
}.

Record AudioResponse : Type := {
  generated_contour : option string;
  audio_results : list Document
}.

Definition temp_dir : string := "temp_audio".

(** The operating system is external too.  Its state is abstract;
    [files] is the read view of a state.  Each operation of the endpoint
    on the file system takes a state and returns the state it leaves,
    with [Ok tt] or the exception it raised: creating a directory,
    writing a file and removing one can all fail, and what they do to
    the paths they are not given is up to the system. *)
Class Os : Type := {
  os_state : Type;
  files : os_state -> FileSystem;
  (* [os.makedirs(name, exist_ok=True)] *)
  os_makedirs : os_state -> string -> os_state * result unit;
  (* [with open(path, "wb") as buffer: buffer.write(contents)] *)
  write_file : os_state -> string -> list Byte.byte -> os_state * result unit;
  (* [os.path.exists(path)], which holds of a directory as well *)
  os_path_exists : os_state -> string -> bool;
  (* [os.remove(path)] *)
  os_remove : os_state -> string -> os_state * result unit
}.

(** The [try] block of [search_by_audio]: the upload is read and written
    to [file_path], and the contour is extracted from that file. *)
Definition search_by_audio_try `{L : Librosa} `{O : Os} (s : os_state)
    (file : UploadFile) (file_path : string) : os_state * result (option string) :=
  match read file with
  | Raise e => (s, Raise e)
  | Ok contents =>
      match write_file s file_path contents with
      | (s1, Raise e) => (s1, Raise e)
      | (s1, Ok _) => (s1, Ok (audio_to_contour (files s1) file_path))
      end
  end.

(** Its [finally] clause: [if os.path.exists(file_path): os.remove(file_path)]. *)
Definition search_by_audio_finally `{O : Os} (s : os_state) (file_path : string)
  : os_state * result unit :=
  if os_path_exists s file_path then os_remove s file_path else (s, Ok tt).

(** The endpoint returns its response, or raises, and leaves a state of
    the file system behind.  An exception of [os.makedirs] leaves the
    function at once.  The [finally] clause runs whether the [try] block
    raised or not; an exception of the clause replaces the one of the
    block, and an exception of the block is raised again after the
    clause.  [if not contour] holds of [None] and of the empty string. *)
Definition search_by_audio `{L : Librosa} `{O : Os} (s : os_state) (db : Collection)
    (file : UploadFile) : os_state * result AudioResponse :=
  match os_makedirs s temp_dir with
  | (s0, Raise e) => (s0, Raise e)
  | (s0, Ok _) =>
      let file_path := path_join temp_dir (filename file) in
      let (s1, tried) := search_by_audio_try s0 file file_path in
      match search_by_audio_finally s1 file_path with
      | (s2, Raise e) => (s2, Raise e)
      | (s2, Ok _) =>
          (s2,
           match tried with
           | Raise e => Raise e
           | Ok (Some (String c rest)) =>
               let contour := String c rest in
               results_cursor <- find_regex_i db (re_escape contour) ;;
               let results_list := map serialize_doc (limit 10 results_cursor) in
               Ok {| generated_contour := Some contour; audio_results := results_list |}
           | Ok _ => Ok {| generated_contour := None; audio_results := [] |}
           end)
      end
  end.

End main.

(** ** backend/ingest.py, continued: metadata and the population of the corpus *)

Module ingestion.

(** The set literal [COMPOSERS], in the order it is written. *)
Definition COMPOSERS : list string := [
  "Johann Sebastian Bach";
  "Béla Bartók";
  "Johannes Brahms";
  "Max Bruch";
  "Anton Bruckner";
  "Ludwig van Beethoven";
  "Frédéric Chopin";
  "Carl Czerny";
  "Claude Debussy";
  "Antonín Dvořák";
  "Gabriel Fauré";
  "César Franck";
  "Edvard Grieg";
  "Joseph Haydn";
  "George Frideric Handel";
  "Franz Liszt";
  "Wolfgang Amadeus Mozart";
  "Felix Mendelssohn";
  "Modest Mussorgsky";
  "Niccolò Paganini";
  "Sergei Rachmaninoff";
  "Jean-Philippe Rameau";
  "Nikolai Rimsky-Korsakov";
  "Camille Saint-Saëns";
  "Franz Schubert";
  "Erik Satie";
  "Domenico Scarlatti";
  "Robert Schumann";
  "Alexander Scriabin";
  "Richard Strauss";
  "Pyotr Ilyich Tchaikovsky";
  "Tomaso Antonio Vitali";
  "Antonio Vivaldi"
]%string.

Definition SOURCE_DIR : string := "mutopia_files".

(** The header fields [parse_ly_header] searches for, one per regular
    expression it builds. *)
Inductive Field : Type :=
| mutopiatitle | title_field
| mutopiacomposer | composer_field
| mutopiaopus | opus_field
| piece_field
| date_field.                 (* the pattern [(date|mutopiadate)] *)

(** What ingestion takes from outside the repository: Python's Unicode
    string methods, the [re] module on the patterns of the header parser,
    the files, mido, and the database driver.  Strings are UTF-8 byte
    strings. *)
Class Env : Type := {
  str_lower : string -> string;                  (* [s.lower()] *)
  str_strip : string -> string;                  (* [s.strip()] *)
  open_read : string -> result string;           (* [open(path, ...).read()] *)
  (** [re.search] of the pattern of a field in a text: [None] when there
      is no match, otherwise what [m.group(1)] is ([None] when the first
      group took no part in the match) *)
  header_search : Field -> string -> option (option string);
  (** [re.sub(r'\s*\([^)]*\)\s*', '', s)] *)
  remove_parentheses : string -> string;
  (** [re.search] of the year pattern: [group(1)] of the match, if any *)
  year_search : string -> option string;
  midi_file : string -> result ingest.MidiFile;  (* [mido.MidiFile(path)] *)
  relpath : string -> string -> string;          (* [os.path.relpath] *)
  set_order : list string;                       (* the order [for c in COMPOSERS] visits *)
  object_id : nat -> string                      (* the id the store gives the n-th insert *)
}.

(** *** String helpers *)

(** [needle in hay] *)
Fixpoint str_contains (needle hay : string) : bool :=
  String.prefix needle hay
  || match hay with
     | EmptyString => false
     | String _ hay' => str_contains needle hay'
     end.

(** [s.endswith(suffix)] *)
Definition endswith (s suffix : string) : bool :=
  (String.length suffix <=? String.length s)
  && String.eqb
       (substring (String.length s - String.length suffix) (String.length suffix) s)
       suffix.

(** [s.split()] for a string whose white space is ASCII, as it is in every
    entry of [COMPOSERS]: the maximal runs of other characters.  [word]
    holds the characters of the current run, last first. *)
Definition is_space (c : ascii) : bool :=
  in_range 9 13 c || in_range 28 32 c.

Definition close_word (word : list ascii) (words : list string) : list string :=
  match word with
  | [] => words
  | _ :: _ => string_of_list_ascii (rev word) :: words
  end.

Fixpoint split_from (s : string) (word : list ascii) : list string :=
  match s with
  | EmptyString => close_word word []
  | String c s' =>
      if is_space c then close_word word (split_from s' [])
      else split_from s' (c :: word)
  end.

Definition split (s : string) : list string := split_from s [].

(** [s.replace('\\', '/')] *)
Fixpoint backslashes_to_slashes (s : string) : string :=
  match s with
  | EmptyString => EmptyString
  | String c s' =>
      String (if Ascii.eqb c "\" then "/"%char else c) (backslashes_to_slashes s')
  end.

(** The truth value of an optional string: [None] and the empty string
    are false. *)
Definition truthy (s : option string) : bool :=
  match s with
  | Some (String _ _) => true
  | _ => false
  end.

(** *** [resolve_composer_only] *)

(** The loop over the set, in the order [order]. *)
Fixpoint resolve_loop `{E : Env} (lc : string) (order : list string)
  : result (option string) :=
  match order with
  | [] => Ok None
  | c :: rest =>
      last_name <- getitem_last (split c) ;;
      if str_contains (str_lower last_name) lc then Ok (Some c)
      else resolve_loop lc rest
  end.

Definition resolve_composer_only `{E : Env} (composer : option string)
  : result (option string) :=
  match composer with
  | Some (String ch rest) => resolve_loop (str_lower (String ch rest)) set_order
  | _ => Ok None
  end.

(** *** [parse_ly_header] *)

(** The dictionary [metadata]; the key [composer] holds [{"name": ...}]. *)
Record Metadata : Type := {
  md_title : option string;
  md_composer : option string;
  md_opus : option string;
  md_piece : option string;
  md_year : option string
}.

Definition no_metadata : Metadata :=
  {| md_title := None; md_composer := None; md_opus := None;
     md_piece := None; md_year := None |}.

(** [pick_first]: [m.group(1).strip() if m else None]; [None.strip()]
    raises [AttributeError]. *)
Definition pick_first `{E : Env} (content : string) (field : Field)
  : result (option string) :=
  match header_search field content with
  | None => Ok None
  | Some None => Raise (Exception "AttributeError")
  | Some (Some group) => Ok (Some (str_strip group))
  end.

(** A field looked up under its mutopia name first, then under its plain
    name. *)
Definition pick_either `{E : Env} (content : string) (first second : Field)
  : result (option string) :=
  value <- pick_first content first ;;
  if truthy value then Ok value else pick_first content second.

(** The statements after [metadata = {}], run on the contents of the
    file.  An exception ends them; the [except] clause then leaves
    [metadata] as it is at that point. *)
Definition parse_fields `{E : Env} (content : string) : Metadata :=
  let md := no_metadata in
  match pick_either content mutopiatitle title_field with
  | Raise _ => md
  | Ok title =>
  let md := if truthy title
            then {| md_title := title; md_composer := md_composer md;
                    md_opus := md_opus md; md_piece := md_piece md;
                    md_year := md_year md |}
            else md in
  match pick_either content mutopiacomposer composer_field with
  | Raise _ => md
  | Ok composer =>
  let md := match composer with
            | Some (String ch rest) =>
                {| md_title := md_title md;
                   md_composer :=
                     Some (str_strip (remove_parentheses (String ch rest)));
                   md_opus := md_opus md; md_piece := md_piece md;
                   md_year := md_year md |}
            | _ => md
            end in
  match pick_either content mutopiaopus opus_field with
  | Raise _ => md
  | Ok opus =>
  let md := if truthy opus
            then {| md_title := md_title md; md_composer := md_composer md;
                    md_opus := opus; md_piece := md_piece md;
                    md_year := md_year md |}
            else md in
  match pick_first content piece_field with
  | Raise _ => md
  | Ok piece =>
  let md := if truthy piece
            then {| md_title := md_title md; md_composer := md_composer md;
                    md_opus := md_opus md; md_piece := piece;
                    md_year := md_year md |}
            else md in
  match pick_first content date_field with
  | Raise _ => md
  | Ok date =>
      match date with
      | Some (String ch rest) =>
          match year_search (String ch rest) with
          | Some year =>
              {| md_title := md_title md; md_composer := md_composer md;
                 md_opus := md_opus md; md_piece := md_piece md;
                 md_year := Some year |}
          | None => md
          end
      | _ => md
      end
  end end end end end.

(** [metadata] is bound inside the [try] block, after the file is read.
    When the file cannot be opened or read the [except] clause reports
    the error and the [print] after it reads the unbound [metadata]. *)
Definition parse_ly_header `{E : Env} (ly_path : string) : result Metadata :=
  match open_read ly_path with
  | Raise _ => Raise (Exception "UnboundLocalError")
  | Ok content => Ok (parse_fields content)
  end.

(** *** [populate_database] *)

(** An item of [os.walk]: a directory and the names of its files. *)
Definition WalkItem : Type := (string * list string)%type.

Definition or_default (s : option string) (default : string) : string :=
  match s with
  | Some (String ch rest) => String ch rest
  | _ => default
  end.

(** The body of the loop, for one directory: the collection afterwards,
    or the exception that leaves the loop. *)
Definition populate_step `{E : Env} (db : Collection) (item : WalkItem)
  : result Collection :=
  let '(dirpath, filenames) := item in
  let ly_files := filter (fun f => endswith f ".ly") filenames in
  let mid_files := filter (fun f => endswith f ".mid") filenames in
  match ly_files, mid_files with
  | ly_file :: _, mid_file :: _ =>
      let ly_path := path_join dirpath ly_file in
      let mid_path := path_join dirpath mid_file in
      header <- parse_ly_header ly_path ;;
      let title := md_title header in
      let header_composer := md_composer header in
      resolved_composer <- resolve_composer_only header_composer ;;
      match resolved_composer with
      | Some (String ch rest) =>
          match ingest.midi_to_contour (midi_file mid_path) with
          | Some (String ch' rest') =>
              Ok (db ++ [ {| _id := ObjectId (object_id (length db));
                             title := or_default title "Unknown Title";
                             composer := String ch rest;
                             melodic_contour := String ch' rest';
                             lilypond_path :=
                               backslashes_to_slashes (relpath ly_path SOURCE_DIR) |} ])
          | _ => Ok db
          end
      | _ => Ok db
      end
  | _, _ => Ok db
  end.

(** The loop: the collection it leaves, and whether it ended or raised. *)
Fixpoint populate_loop `{E : Env} (walk : list WalkItem) (db : Collection)
  : Collection * result unit :=
  match walk with
  | [] => (db, Ok tt)
  | item :: walk' =>
      match populate_step db item with
      | Ok db' => populate_loop walk' db'
      | Raise e => (db, Raise e)
      end
  end.

(** [delete_many({})], then the loop over [os.walk(SOURCE_DIR)]. *)
Definition populate_database `{E : Env} (walk : list WalkItem) (db : Collection)
  : Collection * result unit :=
  populate_loop walk [].

End ingestion.

(* ================================================================== *)
(** * Part II: vocabulary of the specification *)
(* ================================================================== *)

(** The contour symbol for a pitch [cur] that follows [prev]. *)
Definition direction {P : Type} `{Pitch P} (cur prev : P) : ascii :=
  if pitch_gt cur prev then "U"%char
  else if pitch_lt cur prev then "D"%char
  else "R"%char.

(** The symbol at position [i >= 1] of the contour of [notes]. *)
Definition symbol_at {P : Type} `{Pitch P} (notes : list P) (i : nat) : ascii :=
  match nth_error notes i, nth_error notes (i - 1) with
  | Some cur, Some prev => direction cur prev
  | _, _ => "R"%char
  end.

(** The contour of a sequence of at least two pitches, symbol by symbol. *)
Definition encoding {P : Type} `{Pitch P} (notes : list P) : string :=
  string_of_list_ascii
    ("*"%char :: map (symbol_at notes) (seq 1 (length notes - 1))).

(** A one-character string. *)
Definition single (c : ascii) : string := String c EmptyString.

(** Equality of pitches ([==]), which the specification speaks of and the
    code never tests. *)
Class PitchEq (P : Type) : Type := {
  pitch_eq : P -> P -> bool
}.

#[export] Instance PitchEq_Z : PitchEq Z := {| pitch_eq := Z.eqb |}.

#[export] Instance PitchEq_float : PitchEq float := {| pitch_eq := PrimFloat.eqb |}.

(** How [>], [<] and [==] exclude one another. *)
Class PitchLaws (P : Type) `{Pitch P} `{PitchEq P} : Prop := {
  gt_not_lt : forall a b : P, pitch_gt a b = true -> pitch_lt a b = false;
  eq_not_gt : forall a b : P, pitch_eq a b = true -> pitch_gt a b = false;
  eq_not_lt : forall a b : P, pitch_eq a b = true -> pitch_lt a b = false
}.

(** The notes a track sounds: the note of each [note_on] message with a
    strictly positive velocity, in the order of the messages. *)
Definition sounding_notes (track : ingest.MidiTrack) : list Z :=
  flat_map (fun msg =>
              match msg with
              | ingest.note_on note velocity =>
                  if (0 <? velocity)%Z then [note] else []
              | _ => []
              end) track.

(** The number of [note_on] events of a track, counted message by
    message. *)
Fixpoint note_on_events (track : ingest.MidiTrack) : nat :=
  match track with
  | [] => 0
  | ingest.note_on _ _ :: rest => S (note_on_events rest)
  | _ :: rest => note_on_events rest
  end.

(** ** Segmentation *)

(** The last kept observation ([notes[-1]]), if any. *)
Definition last_kept (notes : list float) : option float :=
  match notes with
  | [] => None
  | x :: rest => Some (last rest x)
  end.

(** [a] differs from [b] by strictly more than half a semitone, in the
    arithmetic of the code: [abs(a - b) > 0.5] on binary64 floats. *)
Definition far_apart (a b : float) : bool := (0.5 <? abs (a - b))%float.

(** A pitch is new when nothing is kept yet or it is far from the last
    kept observation. *)
Definition is_new (notes : list float) (pitch : float) : bool :=
  match last_kept notes with
  | None => true
  | Some last_note => far_apart pitch last_note
  end.

(** Every observation is far from the one kept before it. *)
Definition Separated (notes : list float) : Prop :=
  forall (i : nat) (cur prev : float),
    1 <= i -> nth_error notes i = Some cur -> nth_error notes (i - 1) = Some prev ->
    far_apart cur prev = true.

(** The pitch of the strongest bin of frame [t]: [pitches[index, t]] for
    [index] the argmax of the magnitudes of the frame (of a spectrum with
    at least one bin). *)
Definition dominant_pitch (pt : main.Piptrack) (t : nat) : float :=
  match main.argmax (main.column (main.magnitudes pt) (main.n_bins pt) t) with
  | Ok index => main.pitches pt index t
  | Raise _ => 0%float
  end.

(** The stream of per-frame MIDI pitches: the dominant pitch of every
    frame that has one ([pitch > 0]), converted by [hz_to_midi]. *)
Definition frame_pitches `{L : main.Librosa} (pt : main.Piptrack) : list float :=
  map main.hz_to_midi
    (filter (fun pitch => (0 <? pitch)%float)
       (map (dominant_pitch pt) (seq 0 (main.n_frames pt)))).

(** ** Extraction failures of an audio query *)

(** The ways the extraction of a contour from the uploaded bytes fails:
    the upload is empty, it does not decode, pitch tracking raises, the
    frame loop raises, or fewer than two observations are kept. *)
Inductive ExtractionFails `{L : main.Librosa} (contents : list Byte.byte) : Prop :=
| fails_empty :
    contents = [] -> ExtractionFails contents
| fails_decode (e : exn) :
    main.load contents = Raise e -> ExtractionFails contents
| fails_tracking (y : main.waveform) (e : exn) :
    main.load contents = Ok y -> main.piptrack y = Raise e ->
    ExtractionFails contents
| fails_frames (y : main.waveform) (pt : main.Piptrack) (e : exn) :
    main.load contents = Ok y -> main.piptrack y = Ok pt ->
    for_in (range 0 (main.n_frames pt)) (main.frame_step pt) [] = Raise e ->
    ExtractionFails contents
| fails_empty_melody (y : main.waveform) (pt : main.Piptrack) (notes : list float) :
    main.load contents = Ok y -> main.piptrack y = Ok pt ->
    for_in (range 0 (main.n_frames pt)) (main.frame_step pt) [] = Ok notes ->
    length notes < 2 ->
    ExtractionFails contents.

(** ** A stand-in for librosa, for the examples

    Each byte of the demo files is one analysis frame.  Byte [xff] does
    not decode; the other bytes are tracked to the pitch [demo_pitch]
    gives, carried by bin 1 of a two-bin spectrum.  The demo pitches are
    MIDI numbers already, so the stand-in for [hz_to_midi] is the
    identity. *)

Definition demo_pitch (b : Byte.byte) : float :=
  match b with
  | Byte.x01 => 60.0
  | Byte.x02 => 60.2
  | Byte.x03 => 64.0
  | Byte.x04 => 63.9
  | Byte.x05 => 63.8
  | _ => 0
  end%float.

Definition demo_piptrack (frame_pitches : list float) : main.Piptrack :=
  {| main.n_bins := 2;
     main.n_frames := length frame_pitches;
     main.pitches := fun k t => if k =? 1 then nth t frame_pitches 0%float else 0%float;
     main.magnitudes := fun k t => if k =? 1 then 1%float else 0%float |}.

Definition demo_librosa : main.Librosa :=
  {| main.waveform := list float;
     main.load := fun contents =>
       if existsb (Byte.eqb Byte.xff) contents
       then Raise (Exception "cannot decode")
       else Ok (map demo_pitch contents);
     main.piptrack := fun y => Ok (demo_piptrack y);
     main.hz_to_midi := fun hz => hz |}.

Definition no_files : main.FileSystem := fun _ => None.

(** Read views for the examples: [with_file fs path contents] reads
    [contents] at the string [path] and is [fs] at every other string;
    [without_file fs path] reads nothing at [path]. *)
Definition with_file (fs : main.FileSystem) (path : string) (contents : list Byte.byte)
  : main.FileSystem :=
  fun p => if String.eqb p path then Some contents else fs p.

Definition without_file (fs : main.FileSystem) (path : string) : main.FileSystem :=
  fun p => if String.eqb p path then None else fs p.

(** ** The file system

    What the statements about the removal of the temporary file ask of
    the operating system: a removal that completes leaves nothing to
    read at the path it was given, and there is nothing to read at a
    path that does not exist. *)
Class OsLaws `{O : main.Os} : Prop := {
  removed : forall (s s' : main.os_state) (path : string),
    main.os_remove s path = (s', Ok tt) ->
    main.files s' path = None;
  absent : forall (s : main.os_state) (path : string),
    main.os_path_exists s path = false ->
    main.files s path = None
}.

(** A stand-in for the operating system, for the examples: one flat
    directory, [temp_audio].  Its files are the paths [temp_audio/name]
    for a [name] that is not empty, has no slash and is neither [.] nor
    [..]; the stand-in refuses to write anywhere else, with
    [FileNotFoundError] below [temp_audio] (there is no subdirectory) and
    [OSError] otherwise. *)
Fixpoint has_slash (name : string) : bool :=
  match name with
  | EmptyString => false
  | String c rest => Ascii.eqb c "/" || has_slash rest
  end.

Definition plain_name (name : string) : bool :=
  negb (String.eqb name EmptyString) && negb (String.eqb name ".")
  && negb (String.eqb name "..") && negb (has_slash name).

Definition name_in_temp_dir (path : string) : option string :=
  if String.prefix "temp_audio/" path
  then Some (String.substring 11 (String.length path - 11) path)
  else None.

Definition demo_write (fs : main.FileSystem) (path : string) (contents : list Byte.byte)
  : main.FileSystem * result unit :=
  match name_in_temp_dir path with
  | Some name =>
      if plain_name name then (with_file fs path contents, Ok tt)
      else if has_slash name then (fs, Raise FileNotFoundError)
      else (fs, Raise OSError)
  | None => (fs, Raise OSError)
  end.

Definition demo_remove (fs : main.FileSystem) (path : string)
  : main.FileSystem * result unit :=
  if main.path_exists fs path then (without_file fs path, Ok tt)
  else (fs, Raise FileNotFoundError).

Definition demo_os : main.Os :=
  {| main.os_state := main.FileSystem;
     main.files := fun fs => fs;
     main.os_makedirs := fun fs _ => (fs, Ok tt);
     main.write_file := demo_write;
     main.os_path_exists := main.path_exists;
     main.os_remove := demo_remove |}.

Definition demo_doc (id contour : string) : Document :=
  {| _id := ObjectId id;
     title := "Untitled";
     composer := "Anonymous";
     melodic_contour := contour;
     lilypond_path := (id ++ ".ly")%string |}.

(** ** Substring containment and the contour alphabet *)

(** ASCII lower-casing of a string. *)
Fixpoint lower (s : string) : string :=
  match s with
  | EmptyString => EmptyString
  | String c s' => String (to_lower c) (lower s')
  end.

(** [subject] contains [pattern] as a contiguous substring, letter case
    aside. *)
Definition Substring_ci (pattern subject : string) : Prop :=
  exists pre post : string, lower subject = (pre ++ lower pattern ++ post)%string.

(** The four symbols of a contour. *)
Definition contour_symbol (c : ascii) : bool :=
  existsb (Ascii.eqb c) (list_ascii_of_string "*UDR").

Definition is_contour (s : string) : bool :=
  forallb contour_symbol (list_ascii_of_string s).

(** A character that is no contour symbol in either letter case. *)
Definition foreign (c : ascii) : bool :=
  negb (existsb (Ascii.eqb c) (list_ascii_of_string "*UDRudr")).

(** ** Transposition *)

(** A message, a track and a file with every note moved by [k] semitones. *)
Definition transpose_message (k : Z) (msg : ingest.Message) : ingest.Message :=
  match msg with
  | ingest.note_on note velocity => ingest.note_on (note + k) velocity
  | ingest.note_off note velocity => ingest.note_off (note + k) velocity
  | ingest.other_message type => ingest.other_message type
  end.

Definition transpose (k : Z) (mid : ingest.MidiFile) : ingest.MidiFile :=
  {| ingest.tracks := map (map (transpose_message k)) (ingest.tracks mid) |}.

(** ** Subsequences *)

(** [Subsequence kept all]: [kept] is [all] with some elements left out,
    the others in their order. *)
Inductive Subsequence {A : Type} : list A -> list A -> Prop :=
| subseq_nil (l : list A) : Subsequence [] l
| subseq_take (x : A) (kept l : list A) :
    Subsequence kept l -> Subsequence (x :: kept) (x :: l)
| subseq_skip (x : A) (kept l : list A) :
    Subsequence kept l -> Subsequence kept (x :: l).

(** A MIDI file of one track that sounds the given notes, for the
    examples. *)
Definition demo_midi (notes : list Z) : ingest.MidiFile :=
  {| ingest.tracks := [map (fun note => ingest.note_on note 64) notes] |}.

(** ** Composers *)

(** The last word of a name ([c.split()[-1]]), if it has one. *)
Definition last_name (c : string) : option string :=
  match getitem_last (ingestion.split c) with
  | Ok word => Some word
  | Raise _ => None
  end.

(** The lower-cased text [lc] mentions the composer [c]: it contains the
    lower-cased last name of [c]. *)
Definition mentions `{E : ingestion.Env} (lc c : string) : bool :=
  match last_name c with
  | Some word => ingestion.str_contains (ingestion.str_lower word) lc
  | None => false
  end.

(** ** A stand-in for the surroundings of ingestion, for the examples

    Text is ASCII.  One directory, [mutopia_files/bach], holds a readable
    header and a MIDI file; the header under [mutopia_files/locked]
    cannot be read.  The set [COMPOSERS] is visited last entry first. *)

Fixpoint lstrip (s : string) : string :=
  match s with
  | EmptyString => EmptyString
  | String c s' => if ingestion.is_space c then lstrip s' else s
  end.

Definition ascii_strip (s : string) : string :=
  let rev_string t := string_of_list_ascii (rev (list_ascii_of_string t)) in
  rev_string (lstrip (rev_string (lstrip s))).

Definition demo_env : ingestion.Env :=
  {| ingestion.str_lower := lower;
     ingestion.str_strip := ascii_strip;
     ingestion.open_read := fun path =>
       if String.prefix "mutopia_files/locked" path then Raise OSError
       else Ok path;
     ingestion.header_search := fun field content =>
       if String.eqb content "mutopia_files/bach/air.ly" then
         match field with
         | ingestion.title_field => Some (Some " Air "%string)
         | ingestion.composer_field => Some (Some "J. S. Bach (1685-1750)"%string)
         | _ => None
         end
       else None;
     ingestion.remove_parentheses := fun s =>
       if String.eqb s "J. S. Bach (1685-1750)" then "J. S. Bach"%string else s;
     ingestion.year_search := fun _ => None;
     ingestion.midi_file := fun path =>
       if String.eqb path "mutopia_files/bach/air.mid"
       then Ok (demo_midi [62; 66; 64; 64]%Z)
       else Raise (Exception "not a MIDI file");
     ingestion.relpath := fun path start =>
       substring (S (String.length start))
         (String.length path - S (String.length start)) path;
     ingestion.set_order := rev ingestion.COMPOSERS;
     ingestion.object_id := fun n => String (ascii_of_nat (48 + n)) EmptyString |}.

(** ** The populated corpus *)

(** The directory holds a LilyPond file and a MIDI file. *)
Definition has_both (item : ingestion.WalkItem) : bool :=
  negb (Py.is_empty (filter (fun f => ingestion.endswith f ".ly") (snd item)))
  && negb (Py.is_empty (filter (fun f => ingestion.endswith f ".mid") (snd item))).

(** The paths [populate_database] reads in a directory: its first
    LilyPond file and its first MIDI file. *)
Definition first_with (suffix : string) (item : ingestion.WalkItem) : option string :=
  match filter (fun f => ingestion.endswith f suffix) (snd item) with
  | f :: _ => Some (path_join (fst item) f)
  | [] => None
  end.

(** A document as ingestion makes them: a composer of [COMPOSERS], a
    non-empty title, and the contour of some MIDI file. *)
Definition Ingested `{E : ingestion.Env} (doc : Document) : Prop :=
  In (composer doc) ingestion.COMPOSERS
  /\ title doc <> EmptyString
  /\ exists mid_path : string,
      ingest.midi_to_contour (ingestion.midi_file mid_path)
      = Some (melodic_contour doc).

(** The walk of the examples: a directory with a header and a MIDI file,
    one whose header cannot be read, and one without music. *)
Definition bach_dir : ingestion.WalkItem :=
  ("mutopia_files/bach"%string, ["air.ly"; "air.mid"; "air.pdf"]%string).

Definition locked_dir : ingestion.WalkItem :=
  ("mutopia_files/locked"%string, ["suite.mid"; "suite.ly"]%string).

Definition text_dir : ingestion.WalkItem :=
  ("mutopia_files/doc"%string, ["readme.txt"; "notes.ly"]%string).

Definition bach_doc : Document :=
  {| _id := ObjectId "0";
     title := "Air";
     composer := "Johann Sebastian Bach";
     melodic_contour := "*UDR";
     lilypond_path := "bach/air.ly" |}.

(* ================================================================== *)
(** * Part III: properties *)
(* ================================================================== *)

(** ** Strings assembled from one-character pieces *)

Lemma join_single (l : list ascii) :
  join (map single l) = string_of_list_ascii l.
Proof.
  unfold join.
  induction l as [|c l IH]; [reflexivity|].
  destruct l as [|c' l']; [reflexivity|].
  change (String.concat EmptyString (map single (c :: c' :: l')))
    with (single c ++ EmptyString
          ++ String.concat EmptyString (map single (c' :: l')))%string.
  rewrite IH. reflexivity.
Qed.

Lemma length_of_list_ascii (l : list ascii) :
  String.length (string_of_list_ascii l) = length l.
Proof. induction l; simpl; congruence. Qed.

Lemma get_of_list_ascii (l : list ascii) (i : nat) :
  String.get i (string_of_list_ascii l) = nth_error l i.
Proof.
  revert i; induction l as [|c l IH]; intros [|i]; simpl; auto.
Qed.

(** ** The contour encoder *)

Section Encoder.
Context {P : Type} `{Pitch P}.

Lemma contour_step_in_range (notes : list P) (contour : list string) (i : nat) :
  i < length notes ->
  main.contour_step notes contour i = Ok (contour ++ [single (symbol_at notes i)]).
Proof.
  intros Hi. unfold main.contour_step, symbol_at, direction, getitem.
  destruct (nth_error notes i) as [cur|] eqn:Hcur.
  2:{ apply nth_error_None in Hcur. lia. }
  destruct (nth_error notes (i - 1)) as [prev|] eqn:Hprev.
  2:{ apply nth_error_None in Hprev. lia. }
  simpl. destruct (pitch_gt cur prev); [reflexivity|].
  destruct (pitch_lt cur prev); reflexivity.
Qed.

(** The loop never raises: every index it reads is in range. *)
Lemma contour_loop (notes : list P) (m k : nat) (contour : list string) :
  k + m <= length notes ->
  for_in (seq k m) (main.contour_step notes) contour
  = Ok (contour ++ map single (map (symbol_at notes) (seq k m))).
Proof.
  revert k contour. induction m as [|m IH]; intros k contour Hk; simpl.
  - now rewrite app_nil_r.
  - rewrite contour_step_in_range by lia. simpl.
    rewrite IH by lia. now rewrite <- app_assoc.
Qed.

Lemma notes_to_contour_eq (notes : list P) :
  main.notes_to_contour notes
  = Ok (if length notes <? 2 then None else Some (encoding notes)).
Proof.
  unfold main.notes_to_contour, encoding, range.
  destruct (length notes <? 2) eqn:Hlen; [reflexivity|].
  apply Nat.ltb_ge in Hlen.
  rewrite contour_loop by lia. simpl.
  change ("*"%string :: map single (map (symbol_at notes) (seq 1 (length notes - 1))))
    with (map single ("*"%char :: map (symbol_at notes) (seq 1 (length notes - 1)))).
  now rewrite join_single.
Qed.

Lemma encoding_length (notes : list P) :
  1 <= length notes -> String.length (encoding notes) = length notes.
Proof.
  intros Hn. unfold encoding.
  rewrite length_of_list_ascii. simpl.
  rewrite length_map, length_seq. lia.
Qed.

Lemma encoding_first (notes : list P) :
  String.get 0 (encoding notes) = Some "*"%char.
Proof. reflexivity. Qed.

Lemma encoding_get (notes : list P) (i : nat) :
  1 <= i < length notes ->
  String.get i (encoding notes) = Some (symbol_at notes i).
Proof.
  intros Hi. unfold encoding. rewrite get_of_list_ascii.
  destruct i as [|j]; [lia|]. simpl.
  rewrite nth_error_map.
  replace (nth_error (seq 1 (length notes - 1)) j) with (Some (1 + j)); [reflexivity|].
  symmetry. rewrite (nth_error_nth' _ 0) by (rewrite length_seq; lia).
  f_equal. apply seq_nth. lia.
Qed.

End Encoder.

(** ** Comparisons of binary64 floats *)

Lemma SFcompare_antisym (a b : spec_float) :
  SFcompare b a = option_map CompOpp (SFcompare a b).
Proof.
  destruct a as [sa|sa| |sa ma ea], b as [sb|sb| |sb mb eb]; simpl;
    try destruct sa; try destruct sb; try reflexivity.
  all: rewrite (Z.compare_antisym ea eb); destruct (ea ?= eb)%Z; simpl;
    try reflexivity.
  all: change (Pos.compare_cont Eq ma mb) with (Pos.compare ma mb);
    change (Pos.compare_cont Eq mb ma) with (Pos.compare mb ma);
    rewrite (Pos.compare_antisym ma mb); destruct (ma ?= mb)%positive;
    reflexivity.
Qed.

Lemma float_ltb_asym (a b : float) :
  PrimFloat.ltb a b = true -> PrimFloat.ltb b a = false.
Proof.
  rewrite !ltb_spec. unfold SFltb.
  rewrite (SFcompare_antisym (Prim2SF a) (Prim2SF b)).
  destruct (SFcompare (Prim2SF a) (Prim2SF b)) as [[]|]; simpl; congruence.
Qed.

Lemma float_eqb_not_ltb (a b : float) :
  PrimFloat.eqb a b = true ->
  PrimFloat.ltb a b = false /\ PrimFloat.ltb b a = false.
Proof.
  rewrite eqb_spec, !ltb_spec. unfold SFeqb, SFltb.
  rewrite (SFcompare_antisym (Prim2SF a) (Prim2SF b)).
  destruct (SFcompare (Prim2SF a) (Prim2SF b)) as [[]|]; simpl; intuition congruence.
Qed.

#[export] Instance PitchLaws_Z : PitchLaws Z.
Proof.
  split; simpl; intros a b.
  - rewrite !Z.ltb_lt, Z.ltb_ge. lia.
  - rewrite Z.eqb_eq, Z.ltb_ge. lia.
  - rewrite Z.eqb_eq, Z.ltb_ge. lia.
Qed.

#[export] Instance PitchLaws_float : PitchLaws float.
Proof.
  split; simpl; intros a b.
  - apply float_ltb_asym.
  - intros Heq. now apply float_eqb_not_ltb in Heq.
  - intros Heq. now apply float_eqb_not_ltb in Heq.
Qed.

(** ** The encoder written out in ingest.py *)

Lemma ingest_contour_step_eq (notes : list Z) :
  ingest.contour_step notes = main.contour_step notes.
Proof. reflexivity. Qed.

Lemma midi_to_contour_of_track (mid : ingest.MidiFile) (track : ingest.MidiTrack) :
  max_by ingest.note_on_count (ingest.tracks mid) = Ok track ->
  ingest.midi_to_contour (Ok mid)
  = if length (ingest.collect_notes track) <? 2 then None
    else Some (encoding (ingest.collect_notes track)).
Proof.
  intros Hmax. unfold ingest.midi_to_contour, ingest.midi_to_contour_body.
  simpl. rewrite Hmax. simpl.
  pose proof (notes_to_contour_eq (ingest.collect_notes track)) as Henc.
  unfold main.notes_to_contour in Henc.
  rewrite ingest_contour_step_eq.
  destruct (length (ingest.collect_notes track) <? 2); [reflexivity|].
  destruct (for_in _ _ _) as [contour|e]; simpl in *; [|discriminate].
  now injection Henc as ->.
Qed.

(** ** C1: the contour of a pitch sequence *)

Lemma direction_cases {P : Type} `{PitchLaws P} (cur prev : P) :
  (pitch_gt cur prev = true -> direction cur prev = "U"%char)
  /\ (pitch_lt cur prev = true -> direction cur prev = "D"%char)
  /\ (pitch_eq cur prev = true -> direction cur prev = "R"%char).
Proof.
  unfold direction. repeat split.
  - now intros ->.
  - intros Hlt. destruct (pitch_gt cur prev) eqn:Hgt.
    + apply gt_not_lt in Hgt. congruence.
    + now rewrite Hlt.
  - intros Heq. now rewrite (eq_not_gt _ _ Heq), (eq_not_lt _ _ Heq).
Qed.

(** C1.  For every pitch sequence [p] of length [n >= 2], of MIDI numbers
    or of floats, [notes_to_contour] returns a string of length exactly [n]
    whose first character is [*] and whose [i]-th character, for [i] in
    [1..n-1], is [U] if [p[i] > p[i-1]], [D] if [p[i] < p[i-1]] and [R] if
    they are equal; [midi_to_contour] returns the same string for a file
    whose melody track carries the notes [p]; and the notes
    [[60,62,64,63]] encode to ["*UUD"]. *)
Theorem contour_encoder_correct {P : Type} `{PitchLaws P} (p : list P) (q : list Z) :
  2 <= length p -> 2 <= length q ->
  (exists c : string,
      main.notes_to_contour p = Ok (Some c)
      /\ String.length c = length p
      /\ String.get 0 c = Some "*"%char
      /\ forall (i : nat) (cur prev : P),
          1 <= i < length p ->
          nth_error p i = Some cur -> nth_error p (i - 1) = Some prev ->
          (pitch_gt cur prev = true -> String.get i c = Some "U"%char)
          /\ (pitch_lt cur prev = true -> String.get i c = Some "D"%char)
          /\ (pitch_eq cur prev = true -> String.get i c = Some "R"%char))
  /\ (exists c : string,
      (forall (mid : ingest.MidiFile) (track : ingest.MidiTrack),
          max_by ingest.note_on_count (ingest.tracks mid) = Ok track ->
          ingest.collect_notes track = q ->
          ingest.midi_to_contour (Ok mid) = Some c)
      /\ String.length c = length q
      /\ String.get 0 c = Some "*"%char
      /\ forall (i : nat) (cur prev : Z),
          1 <= i < length q ->
          nth_error q i = Some cur -> nth_error q (i - 1) = Some prev ->
          ((cur > prev)%Z -> String.get i c = Some "U"%char)
          /\ ((cur < prev)%Z -> String.get i c = Some "D"%char)
          /\ (cur = prev -> String.get i c = Some "R"%char))
  /\ main.notes_to_contour [60; 62; 64; 63]%Z = Ok (Some "*UUD"%string).
Proof.
  intros Hp Hq. split; [|split]; [| |reflexivity].
  - exists (encoding p). split; [|split; [|split]].
    + rewrite notes_to_contour_eq.
      replace (length p <? 2) with false; [reflexivity|].
      symmetry. apply Nat.ltb_ge. lia.
    + apply encoding_length. lia.
    + apply encoding_first.
    + intros i cur prev Hi Hcur Hprev.
      rewrite encoding_get by assumption.
      unfold symbol_at. rewrite Hcur, Hprev.
      destruct (direction_cases cur prev) as (HU & HD & HR).
      repeat split; intros Hc; f_equal; auto.
  - exists (encoding q). split; [|split; [|split]].
    + intros mid track Hmax <-.
      rewrite (midi_to_contour_of_track mid track Hmax).
      replace (length (ingest.collect_notes track) <? 2) with false; [reflexivity|].
      symmetry. apply Nat.ltb_ge. lia.
    + apply encoding_length. lia.
    + apply encoding_first.
    + intros i cur prev Hi Hcur Hprev.
      rewrite encoding_get by assumption.
      unfold symbol_at. rewrite Hcur, Hprev.
      destruct (direction_cases cur prev) as (HU & HD & HR).
      repeat split; intros Hc; f_equal.
      * apply HU. simpl. apply Z.ltb_lt. lia.
      * apply HD. simpl. apply Z.ltb_lt. lia.
      * apply HR. simpl. now apply Z.eqb_eq.
Qed.

Lemma contour_encoder_correct_witness :
  2 <= length [60.0; 64.0]%float /\ 2 <= length [60; 62; 64; 63]%Z
  /\ (exists c : string,
         main.notes_to_contour [60.0; 64.0]%float = Ok (Some c)
         /\ String.length c = 2
         /\ String.get 0 c = Some "*"%char
         /\ String.get 1 c = Some "U"%char)
  /\ main.notes_to_contour [60; 62; 64; 63]%Z = Ok (Some "*UUD"%string).
Proof.
  assert (Hp : 2 <= length [60.0; 64.0]%float) by (simpl; lia).
  assert (Hq : 2 <= length [60; 62; 64; 63]%Z) by (simpl; lia).
  destruct (contour_encoder_correct [60.0; 64.0]%float [60; 62; 64; 63]%Z Hp Hq)
    as ((c & Hc & Hlen & Hfirst & Hsym) & _ & Hexample).
  split; [exact Hp|]. split; [exact Hq|]. split; [|exact Hexample].
  exists c. split; [exact Hc|]. split; [exact Hlen|]. split; [exact Hfirst|].
  apply (Hsym 1 64.0%float 60.0%float); [simpl; lia|reflexivity|reflexivity|].
  vm_compute. reflexivity.
Defined.

(** ** Melody-track selection *)

Section MaxBy.
Context {A : Type} (key : A -> nat).

(** [max] returns the first item among those with the greatest key. *)
Lemma fold_pick_first_max (rest : list A) (x : A) :
  exists k : nat,
    nth_error (x :: rest) k = Some (fold_left (max_pick key) rest x)
    /\ (forall t, In t (x :: rest) -> key t <= key (fold_left (max_pick key) rest x))
    /\ (forall j t, j < k -> nth_error (x :: rest) j = Some t ->
                    key t < key (fold_left (max_pick key) rest x)).
Proof.
  induction rest as [|y rest IH] using rev_ind.
  - exists 0. simpl. repeat split.
    + intros t [<-|[]]. lia.
    + intros j t Hj. lia.
  - destruct IH as (k & Hk & Hmax & Hfirst).
    rewrite fold_left_app. cbn [fold_left].
    set (best := fold_left (max_pick key) rest x) in *.
    unfold max_pick. destruct (key best <? key y) eqn:Hlt.
    + apply Nat.ltb_lt in Hlt.
      exists (length (x :: rest)). repeat split.
      * change (x :: rest ++ [y]) with ((x :: rest) ++ [y]).
        rewrite nth_error_app2 by lia. now rewrite Nat.sub_diag.
      * intros t Ht. change (x :: rest ++ [y]) with ((x :: rest) ++ [y]) in Ht.
        apply in_app_or in Ht as [Ht|[<-|[]]]; [|lia].
        specialize (Hmax t Ht). lia.
      * intros j t Hj Ht. change (x :: rest ++ [y]) with ((x :: rest) ++ [y]) in Ht.
        rewrite nth_error_app1 in Ht by lia.
        apply nth_error_In in Ht. specialize (Hmax t Ht). lia.
    + apply Nat.ltb_ge in Hlt.
      assert (Hklen : k < length (x :: rest))
        by (apply nth_error_Some; rewrite Hk; discriminate).
      exists k. repeat split.
      * change (x :: rest ++ [y]) with ((x :: rest) ++ [y]).
        now rewrite nth_error_app1 by lia.
      * intros t Ht. change (x :: rest ++ [y]) with ((x :: rest) ++ [y]) in Ht.
        apply in_app_or in Ht as [Ht|[<-|[]]]; [|lia].
        now apply Hmax.
      * intros j t Hj Ht. change (x :: rest ++ [y]) with ((x :: rest) ++ [y]) in Ht.
        rewrite nth_error_app1 in Ht by lia.
        now apply (Hfirst j).
Qed.

Lemma max_by_first_max (xs : list A) :
  xs <> [] ->
  exists (k : nat) (best : A),
    max_by key xs = Ok best
    /\ nth_error xs k = Some best
    /\ (forall t, In t xs -> key t <= key best)
    /\ (forall j t, j < k -> nth_error xs j = Some t -> key t < key best).
Proof.
  destruct xs as [|x rest]; [congruence|]. intros _.
  destruct (fold_pick_first_max rest x) as (k & Hk & Hmax & Hfirst).
  exists k, (fold_left (max_pick key) rest x). unfold max_by. auto.
Qed.

End MaxBy.

Lemma collect_notes_from (track : ingest.MidiTrack) (notes : list Z) :
  fold_left ingest.collect_step track notes = notes ++ sounding_notes track.
Proof.
  revert notes. induction track as [|msg track IH]; intros notes; simpl.
  - now rewrite app_nil_r.
  - rewrite IH. destruct msg as [note velocity| |]; simpl; try reflexivity.
    destruct (0 <? velocity)%Z; simpl; [now rewrite <- app_assoc|reflexivity].
Qed.

Lemma collect_notes_eq (track : ingest.MidiTrack) :
  ingest.collect_notes track = sounding_notes track.
Proof. apply (collect_notes_from track []). Qed.

(** The key of [max] in [midi_to_contour] is the number of [note_on]
    events of the track. *)
Lemma note_on_count_eq (track : ingest.MidiTrack) :
  ingest.note_on_count track = note_on_events track.
Proof.
  unfold ingest.note_on_count.
  induction track as [|msg track IH]; [reflexivity|].
  destruct msg; simpl; now rewrite IH.
Qed.

(** C8.  The melody track is a track with the greatest number of
    [note_on] events, the first such track in the order of the file: no
    track has more [note_on] events, and every track before it has
    strictly fewer.  The notes extracted from it are those of its
    [note_on] messages with a strictly positive velocity, in message
    order, [note_off] messages and messages with velocity 0 contributing
    nothing (a [note_on] with velocity 0 counts towards the selection all
    the same); the contour is the encoding of these notes. *)
Theorem melody_track_is_first_busiest (mid : ingest.MidiFile) :
  ingest.tracks mid <> [] ->
  exists (k : nat) (melody_track : ingest.MidiTrack),
    max_by ingest.note_on_count (ingest.tracks mid) = Ok melody_track
    /\ nth_error (ingest.tracks mid) k = Some melody_track
    /\ (forall t, In t (ingest.tracks mid) ->
                  note_on_events t <= note_on_events melody_track)
    /\ (forall j t, j < k -> nth_error (ingest.tracks mid) j = Some t ->
                    note_on_events t < note_on_events melody_track)
    /\ ingest.collect_notes melody_track = sounding_notes melody_track
    /\ ingest.midi_to_contour (Ok mid)
       = if length (sounding_notes melody_track) <? 2 then None
         else Some (encoding (sounding_notes melody_track)).
Proof.
  intros Hne.
  destruct (max_by_first_max ingest.note_on_count (ingest.tracks mid) Hne)
    as (k & best & Hmax & Hk & Hge & Hfirst).
  exists k, best. split; [exact Hmax|]. split; [exact Hk|]. split; [|split; [|split]].
  - intros t Ht. rewrite <- !note_on_count_eq. now apply Hge.
  - intros j t Hj Ht. rewrite <- !note_on_count_eq. now apply (Hfirst j).
  - apply collect_notes_eq.
  - rewrite (midi_to_contour_of_track mid best Hmax).
    now rewrite collect_notes_eq.
Qed.

(** Three tracks: the first has one [note_on] event, the second and the
    third have three each.  The melody track is the second, at index 1;
    its muted note (velocity 0) counts as an event and is not extracted,
    and the contour is that of its notes 60 and 64, not the [*UD] of the
    third track. *)
Lemma melody_track_is_first_busiest_witness :
  let melody :=
    [ingest.note_on 60 64; ingest.note_off 60 0; ingest.note_on 62 0;
     ingest.note_on 64 70] in
  let mid :=
    {| ingest.tracks :=
         [ [ingest.other_message "set_tempo"; ingest.note_on 72 90];
           melody;
           [ingest.note_on 48 80; ingest.note_on 50 80; ingest.note_on 47 80] ] |} in
  ingest.tracks mid <> []
  /\ exists (k : nat) (melody_track : ingest.MidiTrack),
      k = 1 /\ melody_track = melody
      /\ max_by ingest.note_on_count (ingest.tracks mid) = Ok melody_track
      /\ nth_error (ingest.tracks mid) k = Some melody_track
      /\ note_on_events melody_track = 3
      /\ (forall t, In t (ingest.tracks mid) ->
                    note_on_events t <= note_on_events melody_track)
      /\ (forall j t, j < k -> nth_error (ingest.tracks mid) j = Some t ->
                      note_on_events t < note_on_events melody_track)
      /\ ingest.collect_notes melody_track = [60; 64]%Z
      /\ ingest.midi_to_contour (Ok mid) = Some "*U"%string.
Proof.
  intros melody mid.
  assert (Hne : ingest.tracks mid <> []) by discriminate.
  split; [exact Hne|].
  destruct (melody_track_is_first_busiest mid Hne)
    as (k & melody_track & Hmax & Hk & Hge & Hfirst & Hnotes & Hcontour).
  assert (Hmelody : melody_track = melody).
  { vm_compute in Hmax. injection Hmax as <-. reflexivity. }
  subst melody_track.
  assert (Hindex : k = 1).
  { destruct k as [|[|[|k]]]; [discriminate Hk|reflexivity| |].
    - specialize (Hfirst 1 melody (le_n 2) eq_refl). simpl in Hfirst. lia.
    - destruct k; discriminate Hk. }
  subst k.
  exists 1, melody.
  split; [reflexivity|]. split; [reflexivity|]. split; [exact Hmax|].
  split; [exact Hk|]. split; [reflexivity|]. split; [exact Hge|].
  split; [exact Hfirst|]. split; [rewrite Hnotes; reflexivity|].
  rewrite Hcontour. reflexivity.
Defined.

Example melody_track_tie :
  max_by ingest.note_on_count
    [ [ingest.other_message "set_tempo"; ingest.note_on 72 90];
      [ingest.note_on 60 64; ingest.note_off 60 0; ingest.note_on 62 0];
      [ingest.note_on 48 80; ingest.note_on 50 80] ]
  = Ok [ingest.note_on 60 64; ingest.note_off 60 0; ingest.note_on 62 0]
  /\ ingest.collect_notes
       [ingest.note_on 60 64; ingest.note_off 60 0; ingest.note_on 62 0] = [60%Z].
Proof. split; reflexivity. Qed.

(** ** Loops in the error monad *)

Lemma for_in_app {S A : Type} (xs ys : list A) (body : S -> A -> result S) (s : S) :
  for_in (xs ++ ys) body s = Py.bind (for_in xs body s) (for_in ys body).
Proof.
  revert s. induction xs as [|x xs IH]; intros s; simpl; [reflexivity|].
  destruct (body s x) as [s'|e]; simpl; [apply IH|reflexivity].
Qed.

Lemma for_in_invariant {S A : Type} (Inv : S -> Prop) (body : S -> A -> result S) :
  (forall s x s', Inv s -> body s x = Ok s' -> Inv s') ->
  forall (xs : list A) (s s' : S), Inv s -> for_in xs body s = Ok s' -> Inv s'.
Proof.
  intros Hstep xs. induction xs as [|x xs IH]; intros s s' Hs; simpl.
  - now intros [= <-].
  - destruct (body s x) as [s1|e] eqn:Hbody; simpl; [|discriminate].
    apply IH. now apply (Hstep s x).
Qed.

(** ** Segmentation of the frame pitches *)

Lemma SFcompare_finite_Eq (s1 s2 : bool) (m1 m2 : positive) (e1 e2 : Z) :
  SFcompare (S754_finite s1 m1 e1) (S754_finite s2 m2 e2) = Some Eq ->
  s1 = s2 /\ m1 = m2 /\ e1 = e2.
Proof.
  simpl. destruct s1, s2; try discriminate.
  - destruct (Z.compare_spec e1 e2); try discriminate.
    intros [= Hm]. apply (f_equal CompOpp) in Hm.
    rewrite CompOpp_involutive in Hm. simpl in Hm.
    apply Pos.compare_eq in Hm. auto.
  - destruct (Z.compare_spec e1 e2); try discriminate.
    intros [= Hm]. apply Pos.compare_eq in Hm. auto.
Qed.

Lemma SF64sub_diag (s : bool) (m : positive) (e : Z) :
  SF64sub (S754_finite s m e) (S754_finite s m e) = S754_zero false.
Proof. unfold SF64sub, SFsub. now rewrite Z.sub_diag. Qed.

(** Two floats whose difference exceeds 0.5 in absolute value are ordered
    one way or the other: neither is a NaN, and they are not equal. *)
Lemma SF_far_apart_ordered (a b : spec_float) :
  SFltb (Prim2SF 0.5) (SFabs (SF64sub a b)) = true ->
  SFltb b a = true \/ SFltb a b = true.
Proof.
  change (Prim2SF 0.5) with (S754_finite false 4503599627370496 (-53)).
  unfold SFltb at 2 3. rewrite (SFcompare_antisym a b).
  destruct (SFcompare a b) as [[]|] eqn:Hab; simpl; auto.
  - destruct a as [sa|sa| |sa ma ea], b as [sb|sb| |sb mb eb]; try discriminate.
    all: try (apply SFcompare_finite_Eq in Hab as (-> & -> & ->);
              rewrite SF64sub_diag; discriminate).
    all: try destruct sa; try destruct sb; cbn in *; discriminate.
  - destruct a as [sa|sa| |sa ma ea], b as [sb|sb| |sb mb eb]; try discriminate.
    all: try destruct sa; try destruct sb; cbn in *; discriminate.
Qed.

Lemma far_apart_ordered (a b : float) :
  far_apart a b = true -> pitch_gt a b = true \/ pitch_lt a b = true.
Proof.
  unfold far_apart. simpl.
  rewrite !ltb_spec, abs_spec, sub_spec. apply SF_far_apart_ordered.
Qed.

Lemma last_cons {A : Type} (rest : list A) (x y : A) :
  last (y :: rest) x = last rest y.
Proof.
  revert x y. induction rest as [|z rest IH]; intros x y; [reflexivity|].
  change (last (y :: z :: rest) x) with (last (z :: rest) x).
  now rewrite !IH.
Qed.

Lemma last_kept_nth (notes : list float) :
  last_kept notes = nth_error notes (length notes - 1).
Proof.
  destruct notes as [|x rest]; [reflexivity|]. simpl length.
  rewrite Nat.sub_succ, Nat.sub_0_r. unfold last_kept. revert x.
  induction rest as [|y rest IH]; intros x; [reflexivity|].
  rewrite last_cons. apply (IH y).
Qed.

(** [append_if_new] never raises: [notes[-1]] is read only when [notes]
    is not empty. *)
Lemma append_if_new_eq (notes : list float) (pitch : float) :
  main.append_if_new notes pitch
  = Ok (if is_new notes pitch then notes ++ [pitch] else notes).
Proof.
  unfold main.append_if_new, is_new, far_apart.
  destruct notes as [|x rest]; simpl; [reflexivity|].
  destruct (0.5 <? abs (pitch - last rest x))%float; reflexivity.
Qed.

Lemma segment_snoc (frames : list float) (pitch : float) :
  main.segment (frames ++ [pitch])
  = (kept <- main.segment frames ;; main.append_if_new kept pitch).
Proof.
  unfold main.segment. rewrite for_in_app. simpl.
  destruct (for_in frames main.append_if_new []) as [kept|e]; simpl; [|reflexivity].
  now destruct (main.append_if_new kept pitch).
Qed.

Lemma segment_total (frames : list float) :
  exists kept : list float, main.segment frames = Ok kept.
Proof.
  induction frames as [|pitch frames IH] using rev_ind.
  - now exists [].
  - destruct IH as (kept & Hkept). rewrite segment_snoc, Hkept. simpl.
    rewrite append_if_new_eq. eauto.
Qed.

Lemma Separated_nil : Separated [].
Proof. intros [|i] cur prev _ Hcur; discriminate. Qed.

Lemma append_if_new_Separated (notes notes' : list float) (pitch : float) :
  Separated notes -> main.append_if_new notes pitch = Ok notes' -> Separated notes'.
Proof.
  intros Hsep. rewrite append_if_new_eq. intros [= <-].
  unfold is_new. rewrite last_kept_nth.
  destruct (nth_error notes (length notes - 1)) as [last_note|] eqn:Hlast.
  2:{ apply nth_error_None in Hlast.
      assert (notes = []) as -> by (destruct notes; simpl in *; [reflexivity|lia]).
      intros [|[|i]] cur prev Hi Hcur Hprev; try lia; discriminate. }
  destruct (far_apart pitch last_note) eqn:Hfar; [|assumption].
  assert (Hlen : 1 <= length notes).
  { destruct notes; simpl in *; [discriminate|lia]. }
  intros i cur prev Hi Hcur Hprev.
  destruct (Nat.lt_ge_cases i (length notes)) as [Hlt|Hge].
  - rewrite nth_error_app1 in Hcur, Hprev by lia. now apply (Hsep i).
  - assert (i = length notes) as ->.
    { apply Nat.le_antisymm; [|assumption].
      assert (i < length (notes ++ [pitch]))
        by (apply nth_error_Some; rewrite Hcur; discriminate).
      rewrite length_app in *. simpl in *. lia. }
    rewrite nth_error_app2, Nat.sub_diag in Hcur by lia.
    rewrite nth_error_app1 in Hprev by lia.
    simpl in Hcur. congruence.
Qed.

Lemma segment_Separated (frames kept : list float) :
  main.segment frames = Ok kept -> Separated kept.
Proof.
  apply (for_in_invariant Separated main.append_if_new); [|apply Separated_nil].
  intros s x s' Hs Hstep. now apply (append_if_new_Separated s s' x).
Qed.

(** ** The frame loop of [audio_to_contour] *)

Section Audio.
Context `{L : main.Librosa}.

Lemma frame_step_Separated (pt : main.Piptrack) (notes notes' : list float) (t : nat) :
  Separated notes -> main.frame_step pt notes t = Ok notes' -> Separated notes'.
Proof.
  intros Hsep. unfold main.frame_step.
  destruct (main.argmax _) as [index|e]; simpl; [|discriminate].
  destruct (0 <? main.pitches pt index t)%float.
  - now apply append_if_new_Separated.
  - now intros [= <-].
Qed.

Lemma frame_loop_Separated (pt : main.Piptrack) (notes : list float) :
  for_in (range 0 (main.n_frames pt)) (main.frame_step pt) [] = Ok notes ->
  Separated notes.
Proof.
  apply (for_in_invariant Separated (main.frame_step pt)); [|apply Separated_nil].
  intros s t s' Hs Hstep. now apply (frame_step_Separated pt s s' t).
Qed.

Lemma argmax_nonempty (pt : main.Piptrack) (t : nat) :
  main.n_bins pt <> 0 ->
  exists index : nat,
    main.argmax (main.column (main.magnitudes pt) (main.n_bins pt) t) = Ok index.
Proof.
  intros Hbins. unfold main.column.
  destruct (main.n_bins pt) as [|n]; [congruence|]. simpl. eauto.
Qed.

Lemma frame_loop_from (pt : main.Piptrack) (ts : list nat) (notes : list float) :
  main.n_bins pt <> 0 ->
  for_in ts (main.frame_step pt) notes
  = for_in (map main.hz_to_midi
              (filter (fun pitch => (0 <? pitch)%float) (map (dominant_pitch pt) ts)))
      main.append_if_new notes.
Proof.
  intros Hbins. revert notes.
  induction ts as [|t ts IH]; intros notes; [reflexivity|].
  cbn [for_in map]. unfold main.frame_step at 1, dominant_pitch at 1.
  destruct (argmax_nonempty pt t Hbins) as (index & ->). cbn [Py.bind filter].
  destruct (0 <? main.pitches pt index t)%float.
  - cbn [map for_in].
    destruct (main.append_if_new notes _) as [notes'|e]; [|reflexivity].
    apply IH.
  - apply IH.
Qed.

(** The frame loop is the segmentation of the stream of frame pitches. *)
Lemma frame_loop_is_segment (pt : main.Piptrack) :
  main.n_bins pt <> 0 ->
  for_in (range 0 (main.n_frames pt)) (main.frame_step pt) []
  = main.segment (frame_pitches pt).
Proof.
  intros Hbins. unfold main.segment, frame_pitches, range.
  rewrite Nat.sub_0_r. now apply frame_loop_from.
Qed.

(** What [audio_to_contour] returns once the file is read, decoded and
    tracked, and the frame loop has produced [notes]. *)
Lemma audio_to_contour_of_notes (fs : main.FileSystem) (file_path : string)
    (contents : list Byte.byte) (y : main.waveform) (pt : main.Piptrack)
    (notes : list float) :
  fs file_path = Some contents -> contents <> [] ->
  main.load contents = Ok y -> main.piptrack y = Ok pt ->
  for_in (range 0 (main.n_frames pt)) (main.frame_step pt) [] = Ok notes ->
  main.audio_to_contour fs file_path
  = if length notes <? 2 then None else Some (encoding notes).
Proof.
  intros Hfile Hne Hload Htrack Hloop.
  unfold main.audio_to_contour, main.audio_to_contour_body,
    main.path_exists, main.getsize.
  rewrite Hfile. simpl.
  destruct contents as [|b contents]; [congruence|]. simpl.
  rewrite Hload. simpl. rewrite Htrack. simpl. rewrite Hloop. simpl.
  rewrite notes_to_contour_eq. reflexivity.
Qed.

(** Conversely, a contour comes from a run in which every step succeeded. *)
Lemma audio_to_contour_Some (fs : main.FileSystem) (file_path c : string) :
  main.audio_to_contour fs file_path = Some c ->
  exists (contents : list Byte.byte) (y : main.waveform) (pt : main.Piptrack)
         (notes : list float),
    fs file_path = Some contents /\ contents <> []
    /\ main.load contents = Ok y /\ main.piptrack y = Ok pt
    /\ for_in (range 0 (main.n_frames pt)) (main.frame_step pt) [] = Ok notes
    /\ 2 <= length notes /\ c = encoding notes.
Proof.
  unfold main.audio_to_contour, main.audio_to_contour_body,
    main.path_exists, main.getsize.
  destruct (fs file_path) as [contents|] eqn:Hfile; simpl; [|discriminate].
  destruct contents as [|b contents]; simpl; [discriminate|].
  destruct (main.load (b :: contents)) as [y|e] eqn:Hload; simpl; [|discriminate].
  destruct (main.piptrack y) as [pt|e] eqn:Htrack; simpl; [|discriminate].
  destruct (for_in _ _ _) as [notes|e] eqn:Hloop; simpl; [|discriminate].
  rewrite notes_to_contour_eq. simpl.
  destruct (length notes <? 2) eqn:Hlen; [discriminate|].
  intros [= <-]. apply Nat.ltb_ge in Hlen.
  exists (b :: contents), y, pt, notes. repeat split; auto. discriminate.
Qed.

End Audio.

(** ** C3: denoising segmentation *)

Lemma is_new_iff (kept : list float) (pitch : float) :
  is_new kept pitch = true
  <-> kept = []
      \/ exists last_note : float,
          last_kept kept = Some last_note
          /\ (0.5 <? abs (pitch - last_note))%float = true.
Proof.
  unfold is_new, far_apart. split.
  - destruct kept as [|x rest]; [now left|]. simpl. intros Hfar.
    right. now exists (last rest x).
  - intros [->|(last_note & -> & Hfar)]; [reflexivity|assumption].
Qed.

(** C3.  A per-frame pitch is appended to the kept sequence exactly when
    the kept sequence is empty or the pitch differs from the last kept
    observation by strictly more than 0.5 (the difference being the one
    the code computes, on binary64 floats), and is dropped otherwise; the
    frame loop of [audio_to_contour] does this to the stream of frame
    pitches, in order; the frame pitches [[60.0, 60.2, 64.0, 63.9, 63.8]]
    segment to [[60.0, 64.0]], whose contour is ["*U"]. *)
Theorem segmentation_keeps_far_pitches :
  (forall (kept : list float) (pitch : float),
      exists appended : bool,
        main.append_if_new kept pitch
        = Ok (if appended then kept ++ [pitch] else kept)
        /\ (appended = true
            <-> kept = []
                \/ exists last_note : float,
                    last_kept kept = Some last_note
                    /\ (0.5 <? abs (pitch - last_note))%float = true))
  /\ (forall (frames : list float) (pitch : float),
         exists kept : list float,
           main.segment frames = Ok kept
           /\ main.segment (frames ++ [pitch]) = main.append_if_new kept pitch)
  /\ (forall (L : main.Librosa) (pt : main.Piptrack),
         main.n_bins pt <> 0 ->
         for_in (range 0 (main.n_frames pt)) (main.frame_step pt) []
         = main.segment (frame_pitches pt))
  /\ main.segment [60.0; 60.2; 64.0; 63.9; 63.8]%float = Ok [60.0; 64.0]%float
  /\ main.notes_to_contour [60.0; 64.0]%float = Ok (Some "*U"%string)
  /\ main.audio_to_contour (L := demo_librosa)
       (with_file no_files "temp_audio/hum.wav"
          [Byte.x01; Byte.x02; Byte.x03; Byte.x04; Byte.x05])
       "temp_audio/hum.wav"
     = Some "*U"%string.
Proof.
  split; [|split; [|split; [|split; [|split]]]].
  - intros kept pitch. exists (is_new kept pitch). split.
    + apply append_if_new_eq.
    + apply is_new_iff.
  - intros frames pitch. destruct (segment_total frames) as (kept & Hkept).
    exists kept. split; [assumption|]. now rewrite segment_snoc, Hkept.
  - intros L pt Hbins. now apply frame_loop_is_segment.
  - vm_compute. reflexivity.
  - vm_compute. reflexivity.
  - vm_compute. reflexivity.
Qed.

(** The frame loop on the five frames of the scenario. *)
Lemma segmentation_keeps_far_pitches_witness :
  let pt := demo_piptrack [60.0; 60.2; 64.0; 63.9; 63.8]%float in
  main.n_bins pt <> 0
  /\ frame_pitches (L := demo_librosa) pt = [60.0; 60.2; 64.0; 63.9; 63.8]%float
  /\ for_in (range 0 (main.n_frames pt)) (main.frame_step (L := demo_librosa) pt) []
     = Ok [60.0; 64.0]%float.
Proof.
  intros pt.
  assert (Hbins : main.n_bins pt <> 0) by discriminate.
  destruct segmentation_keeps_far_pitches as (_ & _ & Hloop & Hsegment & _).
  split; [exact Hbins|]. split; [vm_compute; reflexivity|].
  rewrite (Hloop demo_librosa pt Hbins).
  change (frame_pitches (L := demo_librosa) pt)
    with [60.0; 60.2; 64.0; 63.9; 63.8]%float.
  exact Hsegment.
Defined.

(** ** C10: audio contours carry no repeat symbol *)

Lemma get_beyond_length (l : list ascii) (i : nat) :
  length l <= i -> String.get i (string_of_list_ascii l) = None.
Proof. intros Hi. rewrite get_of_list_ascii. now apply nth_error_None. Qed.

Lemma Separated_symbol (notes : list float) (i : nat) :
  Separated notes -> 1 <= i < length notes ->
  symbol_at notes i = "U"%char \/ symbol_at notes i = "D"%char.
Proof.
  intros Hsep Hi. unfold symbol_at.
  destruct (nth_error notes i) as [cur|] eqn:Hcur.
  2:{ apply nth_error_None in Hcur. lia. }
  destruct (nth_error notes (i - 1)) as [prev|] eqn:Hprev.
  2:{ apply nth_error_None in Hprev. lia. }
  assert (Hfar : far_apart cur prev = true) by (apply (Hsep i); tauto).
  unfold direction.
  destruct (far_apart_ordered cur prev Hfar) as [Hgt|Hlt].
  - rewrite Hgt. now left.
  - rewrite Hlt. destruct (pitch_gt cur prev); [now left|now right].
Qed.

(** C10.  A contour produced from audio starts with [*], every later
    symbol is [U] or [D], and [R] occurs nowhere in it: the frame loop
    keeps a pitch only when it is more than 0.5 away from the last kept
    one, so two consecutive kept pitches are never equal (nor unordered)
    under the exact comparisons of the encoder. *)
Theorem audio_contour_has_no_repeat `{L : main.Librosa}
    (fs : main.FileSystem) (file_path c : string) :
  main.audio_to_contour fs file_path = Some c ->
  String.get 0 c = Some "*"%char
  /\ (forall i : nat, 1 <= i < String.length c ->
                      String.get i c = Some "U"%char \/ String.get i c = Some "D"%char)
  /\ (forall i : nat, String.get i c <> Some "R"%char).
Proof.
  intros Hc.
  destruct (audio_to_contour_Some fs file_path c Hc)
    as (contents & y & pt & notes & _ & _ & _ & _ & Hloop & Hlen & ->).
  pose proof (frame_loop_Separated pt notes Hloop) as Hsep.
  assert (Hsym : forall i, 1 <= i < length notes ->
            String.get i (encoding notes) = Some "U"%char
            \/ String.get i (encoding notes) = Some "D"%char).
  { intros i Hi. rewrite encoding_get by assumption.
    destruct (Separated_symbol notes i Hsep Hi) as [-> | ->]; auto. }
  split; [apply encoding_first|]. split.
  - intros i Hi. rewrite encoding_length in Hi by lia. now apply Hsym.
  - intros i. destruct (Nat.eq_dec i 0) as [->|Hi0].
    + rewrite encoding_first. discriminate.
    + destruct (Nat.lt_ge_cases i (length notes)) as [Hlt|Hge].
      * destruct (Hsym i) as [-> | ->]; [lia| |]; discriminate.
      * unfold encoding. rewrite get_beyond_length; [discriminate|].
        simpl. rewrite length_map, length_seq. lia.
Qed.

Lemma audio_contour_has_no_repeat_witness :
  let fs := with_file no_files "temp_audio/hum.wav"
              [Byte.x01; Byte.x02; Byte.x03; Byte.x04; Byte.x05; Byte.x01] in
  main.audio_to_contour (L := demo_librosa) fs "temp_audio/hum.wav"
  = Some "*UD"%string
  /\ String.get 0 "*UD" = Some "*"%char
  /\ (forall i : nat, 1 <= i < String.length "*UD" ->
                      String.get i "*UD" = Some "U"%char
                      \/ String.get i "*UD" = Some "D"%char)
  /\ (forall i : nat, String.get i "*UD" <> Some "R"%char).
Proof.
  intros fs. split; [vm_compute; reflexivity|].
  apply (audio_contour_has_no_repeat (L := demo_librosa) fs "temp_audio/hum.wav").
  vm_compute. reflexivity.
Defined.

(** ** C7: fewer than two observations *)

(** C7.  A pitch sequence with fewer than two observations yields no
    contour: [notes_to_contour] returns [None] without raising, and so do
    [midi_to_contour] when the melody track sounds fewer than two notes
    and [audio_to_contour] when segmentation keeps fewer than two pitches;
    the single note [[60]] yields [None]. *)
Theorem short_sequence_has_no_contour {P : Type} `{Pitch P} (p : list P) :
  length p < 2 ->
  main.notes_to_contour p = Ok None
  /\ (forall (mid : ingest.MidiFile) (track : ingest.MidiTrack),
         max_by ingest.note_on_count (ingest.tracks mid) = Ok track ->
         length (ingest.collect_notes track) < 2 ->
         ingest.midi_to_contour (Ok mid) = None)
  /\ (forall (L : main.Librosa) (fs : main.FileSystem) (file_path : string)
             (contents : list Byte.byte) (y : main.waveform) (pt : main.Piptrack)
             (notes : list float),
         fs file_path = Some contents -> contents <> [] ->
         main.load contents = Ok y -> main.piptrack y = Ok pt ->
         for_in (range 0 (main.n_frames pt)) (main.frame_step pt) [] = Ok notes ->
         length notes < 2 ->
         main.audio_to_contour fs file_path = None)
  /\ main.notes_to_contour [60%Z] = Ok None
  /\ ingest.midi_to_contour
       (Ok {| ingest.tracks := [[ingest.note_on 60 64; ingest.note_off 60 0]] |})
     = None.
Proof.
  intros Hp. split; [|split; [|split; [|split]]].
  - rewrite notes_to_contour_eq.
    replace (length p <? 2) with true; [reflexivity|].
    symmetry. now apply Nat.ltb_lt.
  - intros mid track Hmax Hlen.
    rewrite (midi_to_contour_of_track mid track Hmax).
    replace (length (ingest.collect_notes track) <? 2) with true; [reflexivity|].
    symmetry. now apply Nat.ltb_lt.
  - intros L fs file_path contents y pt notes Hfile Hne Hload Htrack Hloop Hlen.
    rewrite (audio_to_contour_of_notes fs file_path contents y pt notes) by assumption.
    replace (length notes <? 2) with true; [reflexivity|].
    symmetry. now apply Nat.ltb_lt.
  - reflexivity.
  - reflexivity.
Qed.

Lemma short_sequence_has_no_contour_witness :
  length [60%Z] < 2
  /\ main.notes_to_contour [60%Z] = Ok None
  /\ main.audio_to_contour (L := demo_librosa)
       (with_file no_files "temp_audio/hum.wav" [Byte.x01; Byte.x02])
       "temp_audio/hum.wav"
     = None.
Proof.
  assert (Hshort : length [60%Z] < 2) by (simpl; lia).
  destruct (short_sequence_has_no_contour [60%Z] Hshort) as (Hnotes & _ & Haudio & _).
  split; [exact Hshort|]. split; [exact Hnotes|].
  apply (Haudio demo_librosa
           (with_file no_files "temp_audio/hum.wav" [Byte.x01; Byte.x02])
           "temp_audio/hum.wav"%string [Byte.x01; Byte.x02]
           [60.0; 60.2]%float (demo_piptrack [60.0; 60.2]%float) [60.0]%float);
    try (vm_compute; reflexivity); try discriminate; simpl; lia.
Defined.

(** ** C4: the encoder compares exactly *)

(** C4, as the code has it.  For fractional pitches the encoder compares
    consecutive pitches exactly, with no tolerance: the symbol is [R]
    exactly when neither pitch is greater than the other, [U] as soon as
    the later pitch is greater and [D] as soon as it is smaller, however
    small the difference. *)
Theorem encoder_compares_exactly (p : list float) (i : nat) (cur prev : float) :
  1 <= i < length p ->
  nth_error p i = Some cur -> nth_error p (i - 1) = Some prev ->
  exists c : string,
    main.notes_to_contour p = Ok (Some c)
    /\ ((prev <? cur)%float = true -> String.get i c = Some "U"%char)
    /\ ((cur <? prev)%float = true -> String.get i c = Some "D"%char)
    /\ (String.get i c = Some "R"%char
        <-> (prev <? cur)%float = false /\ (cur <? prev)%float = false).
Proof.
  intros Hi Hcur Hprev. exists (encoding p).
  split.
  { rewrite notes_to_contour_eq.
    replace (length p <? 2) with false; [reflexivity|].
    symmetry. apply Nat.ltb_ge. lia. }
  rewrite encoding_get by assumption.
  unfold symbol_at. rewrite Hcur, Hprev. unfold direction. simpl.
  destruct (prev <? cur)%float eqn:Hgt.
  - apply float_ltb_asym in Hgt as Hlt. rewrite Hlt. intuition congruence.
  - destruct (cur <? prev)%float eqn:Hlt; intuition congruence.
Qed.

Lemma encoder_compares_exactly_witness :
  1 <= 1 < length [60.0; 60.2]%float
  /\ exists c : string,
      main.notes_to_contour [60.0; 60.2]%float = Ok (Some c)
      /\ ((60.0 <? 60.2)%float = true -> String.get 1 c = Some "U"%char)
      /\ ((60.2 <? 60.0)%float = true -> String.get 1 c = Some "D"%char)
      /\ (String.get 1 c = Some "R"%char
          <-> (60.0 <? 60.2)%float = false /\ (60.2 <? 60.0)%float = false).
Proof.
  split; [simpl; lia|].
  apply (encoder_compares_exactly [60.0; 60.2]%float 1 60.2%float 60.0%float);
    [simpl; lia|reflexivity|reflexivity].
Defined.

(** Two pitches 0.2 apart, within the 0.5 tolerance, encode to [U], not
    to [R]. *)
Lemma encoder_has_no_tolerance :
  (abs (60.2 - 60.0) <=? 0.5)%float = true
  /\ main.notes_to_contour [60.0; 60.2]%float = Ok (Some "*U"%string)
  /\ String.get 1 "*U" <> Some "R"%char.
Proof.
  split; [vm_compute; reflexivity|].
  split; [vm_compute; reflexivity|]. discriminate.
Qed.

(** ** The literal search behind both endpoints *)

Ltac each_ascii c :=
  destruct c as [[] [] [] [] [] [] [] []]; vm_compute;
  try reflexivity; try discriminate; try tauto.

Lemma re_special_not_alnum (c : ascii) :
  re_special c = true -> is_alnum c = false.
Proof. each_ascii c. Qed.

Lemma pcre_meta_re_special (c : ascii) :
  re_special c = false -> pcre_meta c = false /\ Ascii.eqb c "\" = false.
Proof. each_ascii c. Qed.

(** An escaped query is a literal pattern, and stands for the query. *)
Lemma regex_literal_re_escape (q : string) :
  regex_literal (re_escape q) = Some q.
Proof.
  induction q as [|c q IH]; [reflexivity|].
  simpl re_escape. destruct (re_special c) eqn:Hc.
  - change (regex_literal (String "\" (String c (re_escape q))))
      with (if is_alnum c then None
            else option_map (String c) (regex_literal (re_escape q))).
    rewrite (re_special_not_alnum c Hc), IH. reflexivity.
  - destruct (pcre_meta_re_special c Hc) as (Hmeta & Hback).
    simpl. rewrite Hback, Hmeta, IH. reflexivity.
Qed.

Lemma caseless_eqb_eq (a b : ascii) :
  caseless_eqb a b = true <-> to_lower a = to_lower b.
Proof. unfold caseless_eqb. apply Ascii.eqb_eq. Qed.

Lemma match_here_prefix (q s : string) :
  match_here q s = true
  <-> exists post : string, lower s = (lower q ++ post)%string.
Proof.
  revert s. induction q as [|a q IH]; intros s; simpl.
  - split; [intros _; now exists (lower s)|reflexivity].
  - destruct s as [|b s]; simpl.
    + split; [discriminate|]. intros (post & Hpost). discriminate.
    + rewrite andb_true_iff, caseless_eqb_eq, IH. split.
      * intros (Hab & post & Hpost). exists post. now rewrite Hab, Hpost.
      * intros (post & [= Hab Hpost]). split; [congruence|now exists post].
Qed.

Lemma regex_search_i_substring (q s : string) :
  regex_search_i q s = true <-> Substring_ci q s.
Proof.
  unfold Substring_ci. induction s as [|b s IH].
  - simpl. rewrite orb_false_r, match_here_prefix. split.
    + intros (post & Hpost). now exists EmptyString, post.
    + intros (pre & post & Hs). destruct pre; [now exists post|discriminate].
  - cbn [regex_search_i]. rewrite orb_true_iff, match_here_prefix, IH. split.
    + intros [(post & Hpost)|(pre & post & Hs)].
      * now exists EmptyString, post.
      * exists (String (to_lower b) pre), post. simpl. now rewrite Hs.
    + intros (pre & post & Hs). destruct pre as [|p pre].
      * left. now exists post.
      * right. simpl in Hs. injection Hs as _ Hs. now exists pre, post.
Qed.

Lemma find_regex_i_escaped (db : Collection) (q : string) :
  find_regex_i db (re_escape q)
  = Ok (filter (fun doc => regex_search_i q (melodic_contour doc)) db).
Proof. unfold find_regex_i. now rewrite regex_literal_re_escape. Qed.

Lemma search_by_parsons_eq (db : Collection) (q : string) :
  main.search_by_parsons db q
  = Ok {| main.query := q;
          main.results :=
            map main.serialize_doc
              (firstn 20 (filter (fun doc => regex_search_i q (melodic_contour doc)) db)) |}.
Proof. unfold main.search_by_parsons. now rewrite find_regex_i_escaped. Qed.

Lemma limit_firstn (n : nat) (cursor : list Document) :
  n <> 0 -> limit n cursor = firstn n cursor /\ length (limit n cursor) <= n.
Proof.
  intros Hn. unfold limit. destruct (Nat.eqb_spec n 0) as [|_]; [contradiction|].
  split; [reflexivity|apply firstn_le_length].
Qed.

(** ** C2: the text query is a substring search *)

(** C2.  The text query returns, serialized and in the order of the
    corpus, the first 20 of exactly those entries whose contour contains
    the query as a contiguous substring anywhere, letter case aside; a
    cursor limited to [n > 0] yields at most [n] entries; and on the
    corpus with contours ["*UUD"] and ["*DDU"] the query ["UD"] returns
    only the first entry, ["DD"] only the second and ["Z"] none. *)
Theorem parsons_search_is_substring_search (db : Collection) (q : string) :
  (exists keep : Document -> bool,
      (forall doc, keep doc = true <-> Substring_ci q (melodic_contour doc))
      /\ main.search_by_parsons db q
         = Ok {| main.query := q;
                 main.results := map main.serialize_doc (firstn 20 (filter keep db)) |}
      /\ length (firstn 20 (filter keep db)) <= 20)
  /\ (forall (n : nat) (cursor : list Document),
         n <> 0 -> limit n cursor = firstn n cursor /\ length (limit n cursor) <= n)
  /\ (let first := demo_doc "a" "*UUD" in
      let second := demo_doc "b" "*DDU" in
      main.search_by_parsons [first; second] "UD"
      = Ok {| main.query := "UD"; main.results := [main.serialize_doc first] |}
      /\ main.search_by_parsons [first; second] "DD"
         = Ok {| main.query := "DD"; main.results := [main.serialize_doc second] |}
      /\ main.search_by_parsons [first; second] "Z"
         = Ok {| main.query := "Z"; main.results := [] |}
      /\ main.search_by_parsons [first; second] "*uu"
         = Ok {| main.query := "*uu"; main.results := [main.serialize_doc first] |}).
Proof.
  split; [|split].
  - exists (fun doc => regex_search_i q (melodic_contour doc)). split; [|split].
    + intros doc. apply regex_search_i_substring.
    + apply search_by_parsons_eq.
    + apply firstn_le_length.
  - apply limit_firstn.
  - repeat split; reflexivity.
Qed.

Lemma parsons_search_is_substring_search_witness :
  limit 2 [demo_doc "a" "*UUD"; demo_doc "b" "*DDU"; demo_doc "c" "*RRU"]
  = [demo_doc "a" "*UUD"; demo_doc "b" "*DDU"]
  /\ length (limit 2 [demo_doc "a" "*UUD"; demo_doc "b" "*DDU"; demo_doc "c" "*RRU"]) <= 2.
Proof.
  destruct (parsons_search_is_substring_search [] "U") as (_ & Hlimit & _).
  apply (Hlimit 2). discriminate.
Defined.

(** ** Contours are over the contour alphabet *)

Lemma direction_is_symbol {P : Type} `{Pitch P} (cur prev : P) :
  contour_symbol (direction cur prev) = true.
Proof.
  unfold direction.
  destruct (pitch_gt cur prev); [reflexivity|].
  destruct (pitch_lt cur prev); reflexivity.
Qed.

Lemma encoding_is_contour {P : Type} `{Pitch P} (notes : list P) :
  is_contour (encoding notes) = true.
Proof.
  unfold is_contour, encoding.
  rewrite list_ascii_of_string_of_list_ascii. simpl.
  apply forallb_forall. intros c Hc.
  apply in_map_iff in Hc as (i & <- & _). unfold symbol_at.
  destruct (nth_error notes i); [|reflexivity].
  destruct (nth_error notes (i - 1)); [|reflexivity].
  apply direction_is_symbol.
Qed.

(** Every contour ingestion stores is over the contour alphabet. *)
Lemma midi_to_contour_is_contour (parsed : result ingest.MidiFile) (c : string) :
  ingest.midi_to_contour parsed = Some c -> is_contour c = true.
Proof.
  destruct parsed as [mid|e]; [|discriminate].
  destruct (max_by ingest.note_on_count (ingest.tracks mid)) as [track|e] eqn:Hmax.
  - rewrite (midi_to_contour_of_track mid track Hmax).
    destruct (length (ingest.collect_notes track) <? 2); [discriminate|].
    intros [= <-]. apply encoding_is_contour.
  - unfold ingest.midi_to_contour, ingest.midi_to_contour_body. simpl.
    rewrite Hmax. discriminate.
Qed.

(** ** C5: malformed text queries *)

Lemma match_here_chars (q s : string) (a : ascii) :
  match_here q s = true -> In a (list_ascii_of_string q) ->
  exists b : ascii, In b (list_ascii_of_string s) /\ caseless_eqb a b = true.
Proof.
  revert s. induction q as [|a' q IH]; intros s; simpl; [tauto|].
  destruct s as [|b s]; [discriminate|].
  rewrite andb_true_iff. intros (Hab & Hrest) [->|Hin].
  - exists b. simpl. auto.
  - destruct (IH s Hrest Hin) as (b' & Hb' & Heq). exists b'. simpl. auto.
Qed.

Lemma regex_search_i_chars (q s : string) (a : ascii) :
  regex_search_i q s = true -> In a (list_ascii_of_string q) ->
  exists b : ascii, In b (list_ascii_of_string s) /\ caseless_eqb a b = true.
Proof.
  induction s as [|b s IH]; cbn [regex_search_i]; rewrite orb_true_iff.
  - intros [Hhere|Hfalse] Hin; [now apply (match_here_chars q EmptyString)|discriminate].
  - intros [Hhere|Hlater] Hin.
    + now apply (match_here_chars q (String b s)).
    + destruct (IH Hlater Hin) as (b' & Hb' & Heq). exists b'. simpl. auto.
Qed.

Lemma foreign_matches_no_symbol (a b : ascii) :
  foreign a = true -> contour_symbol b = true -> caseless_eqb a b = false.
Proof.
  intros Ha Hb. unfold contour_symbol in Hb. simpl in Hb.
  rewrite !orb_true_iff, !Ascii.eqb_eq in Hb.
  destruct Hb as [->|[->|[->|[->|Hb]]]]; [| | | |discriminate];
    revert Ha; each_ascii a.
Qed.

Lemma foreign_query_no_match (q s : string) :
  (exists a : ascii, In a (list_ascii_of_string q) /\ foreign a = true) ->
  is_contour s = true ->
  regex_search_i q s = false.
Proof.
  intros (a & Hin & Hforeign) Hs.
  destruct (regex_search_i q s) eqn:Hsearch; [|reflexivity].
  destruct (regex_search_i_chars q s a Hsearch Hin) as (b & Hb & Heq).
  unfold is_contour in Hs. rewrite forallb_forall in Hs.
  rewrite (foreign_matches_no_symbol a b Hforeign (Hs b Hb)) in Heq. discriminate.
Qed.

Lemma empty_query_matches (s : string) : regex_search_i EmptyString s = true.
Proof. destruct s; reflexivity. Qed.

Lemma filter_all {A : Type} (f : A -> bool) (l : list A) :
  (forall x, In x l -> f x = true) -> filter f l = l.
Proof.
  induction l as [|x l IH]; intros Hall; simpl; [reflexivity|].
  rewrite (Hall x (or_introl eq_refl)). f_equal. apply IH. intros y Hy.
  apply Hall. now right.
Qed.

Lemma filter_none {A : Type} (f : A -> bool) (l : list A) :
  (forall x, In x l -> f x = false) -> filter f l = [].
Proof.
  induction l as [|x l IH]; intros Hnone; simpl; [reflexivity|].
  rewrite (Hnone x (or_introl eq_refl)). apply IH. intros y Hy.
  apply Hnone. now right.
Qed.

(** C5, as the code has it.  Any text query is accepted without error.
    A query with a character that is no contour symbol in either letter
    case returns no entry from a corpus of contours; the empty query
    matches every entry and returns the first 20 of the corpus. *)
Theorem malformed_query_is_accepted (db : Collection) (q : string) :
  exists r : main.ParsonsResponse,
    main.search_by_parsons db q = Ok r
    /\ main.query r = q
    /\ ((exists a : ascii, In a (list_ascii_of_string q) /\ foreign a = true) ->
        (forall doc, In doc db -> is_contour (melodic_contour doc) = true) ->
        main.results r = [])
    /\ (q = EmptyString ->
        main.results r = map main.serialize_doc (firstn 20 db)).
Proof.
  eexists. split; [apply search_by_parsons_eq|]. simpl.
  split; [reflexivity|]. split.
  - intros Hforeign Hdb. rewrite filter_none; [reflexivity|].
    intros doc Hdoc. apply foreign_query_no_match; auto.
  - intros ->. rewrite filter_all; [reflexivity|].
    intros doc _. apply empty_query_matches.
Qed.

Lemma malformed_query_is_accepted_witness :
  let db := [demo_doc "a" "*UUD"; demo_doc "b" "*DDU"] in
  (exists a : ascii, In a (list_ascii_of_string "UxD") /\ foreign a = true)
  /\ (forall doc, In doc db -> is_contour (melodic_contour doc) = true)
  /\ exists r : main.ParsonsResponse,
      main.search_by_parsons db "UxD" = Ok r
      /\ main.query r = "UxD"%string
      /\ main.results r = [].
Proof.
  intros db.
  assert (Hforeign : exists a : ascii,
             In a (list_ascii_of_string "UxD") /\ foreign a = true).
  { exists "x"%char. split; [simpl; tauto|reflexivity]. }
  assert (Hdb : forall doc, In doc db -> is_contour (melodic_contour doc) = true).
  { intros doc [<-|[<-|[]]]; reflexivity. }
  split; [exact Hforeign|]. split; [exact Hdb|].
  destruct (malformed_query_is_accepted db "UxD") as (r & Hr & Hq & Hnone & _).
  exists r. split; [exact Hr|]. split; [exact Hq|]. now apply Hnone.
Defined.

(** The empty query, and a lower-case query, do return entries. *)
Lemma malformed_query_can_match :
  let first := demo_doc "a" "*UUD" in
  let second := demo_doc "b" "*DDU" in
  main.search_by_parsons [first; second] EmptyString
  = Ok {| main.query := EmptyString;
          main.results := [main.serialize_doc first; main.serialize_doc second] |}
  /\ foreign "u" = false /\ contour_symbol "u" = false
  /\ main.search_by_parsons [first; second] "ud"
     = Ok {| main.query := "ud"; main.results := [main.serialize_doc first] |}.
Proof. repeat split; reflexivity. Qed.

(** ** C6: an audio query whose extraction fails *)

Section AudioFailure.
Context `{L : main.Librosa}.


Lemma audio_to_contour_fails (fs : main.FileSystem) (file_path : string)
    (contents : list Byte.byte) :
  fs file_path = Some contents -> ExtractionFails contents ->
  main.audio_to_contour fs file_path = None.
Proof.
  intros Hfile Hfails.
  destruct Hfails as [-> | e Hload | y e Hload Htrack | y pt e Hload Htrack Hloop
                     | y pt notes Hload Htrack Hloop Hlen].
  1-4: unfold main.audio_to_contour, main.audio_to_contour_body,
         main.path_exists, main.getsize; rewrite Hfile; simpl; try reflexivity.
  - destruct contents; simpl; [reflexivity|]. now rewrite Hload.
  - destruct contents; simpl; [reflexivity|]. rewrite Hload. simpl. now rewrite Htrack.
  - destruct contents; simpl; [reflexivity|]. rewrite Hload. simpl.
    rewrite Htrack. simpl. now rewrite Hloop.
  - destruct contents as [|b contents].
    + unfold main.audio_to_contour, main.audio_to_contour_body,
        main.path_exists, main.getsize. now rewrite Hfile.
    + rewrite (audio_to_contour_of_notes fs file_path (b :: contents) y pt notes);
        try assumption; [|discriminate].
      replace (length notes <? 2) with true; [reflexivity|].
      symmetry. now apply Nat.ltb_lt.
Qed.

(** The failures listed are all there are. *)
Lemma audio_to_contour_None (fs : main.FileSystem) (file_path : string)
    (contents : list Byte.byte) :
  fs file_path = Some contents ->
  main.audio_to_contour fs file_path = None -> ExtractionFails contents.
Proof.
  intros Hfile.
  destruct contents as [|b contents]; [intros _; now apply fails_empty|].
  destruct (main.load (b :: contents)) as [y|e] eqn:Hload.
  2:{ intros _. now apply (fails_decode _ e). }
  destruct (main.piptrack y) as [pt|e] eqn:Htrack.
  2:{ intros _. now apply (fails_tracking _ y e). }
  destruct (for_in (range 0 (main.n_frames pt)) (main.frame_step pt) [])
    as [notes|e] eqn:Hloop.
  2:{ intros _. now apply (fails_frames _ y pt e). }
  rewrite (audio_to_contour_of_notes fs file_path (b :: contents) y pt notes);
    try assumption; [|discriminate].
  destruct (length notes <? 2) eqn:Hlen; [|discriminate].
  intros _. apply Nat.ltb_lt in Hlen. now apply (fails_empty_melody _ y pt notes).
Qed.

End AudioFailure.

(** *** The runs of the audio endpoint *)

Section Endpoint.
Context `{L : main.Librosa} `{O : main.Os}.

(** What the endpoint answers with the contour [contour]. *)
Lemma find_for_contour (db : Collection) (c : ascii) (rest : string) :
  (results_cursor <- find_regex_i db (re_escape (String c rest)) ;;
   Ok {| main.generated_contour := Some (String c rest);
         main.audio_results := map main.serialize_doc (limit 10 results_cursor) |})
  = Ok {| main.generated_contour := Some (String c rest);
          main.audio_results :=
            map main.serialize_doc
              (firstn 10
                 (filter (fun doc => regex_search_i (String c rest) (melodic_contour doc))
                    db)) |}.
Proof.
  rewrite find_regex_i_escaped. cbn [Py.bind].
  destruct (limit_firstn 10
              (filter (fun doc => regex_search_i (String c rest) (melodic_contour doc)) db))
    as (-> & _); [discriminate|]. reflexivity.
Qed.

(** The run in which the directory is made, the upload read and written,
    and the temporary file removed. *)
Lemma search_by_audio_run (s s0 s1 s2 : main.os_state) (db : Collection)
    (file : main.UploadFile) (contents : list Byte.byte) :
  main.os_makedirs s main.temp_dir = (s0, Ok tt) ->
  main.read file = Ok contents ->
  main.write_file s0 (path_join main.temp_dir (main.filename file)) contents
  = (s1, Ok tt) ->
  main.search_by_audio_finally s1 (path_join main.temp_dir (main.filename file))
  = (s2, Ok tt) ->
  main.search_by_audio s db file
  = (s2,
     match main.audio_to_contour (main.files s1)
             (path_join main.temp_dir (main.filename file)) with
     | Some (String c rest) =>
         Ok {| main.generated_contour := Some (String c rest);
               main.audio_results :=
                 map main.serialize_doc
                   (firstn 10
                      (filter (fun doc => regex_search_i (String c rest)
                                            (melodic_contour doc)) db)) |}
     | _ => Ok {| main.generated_contour := None; main.audio_results := [] |}
     end).
Proof.
  intros Hmade Hread Hwrite Hfinally.
  unfold main.search_by_audio, main.search_by_audio_try.
  rewrite Hmade, Hread, Hwrite, Hfinally.
  destruct (main.audio_to_contour _ _) as [[|c rest]|]; try reflexivity.
  now rewrite find_for_contour.
Qed.

(** A response of the endpoint is the one built from the contour of
    what the written file reads as. *)
Lemma search_by_audio_response (s : main.os_state) (db : Collection)
    (file : main.UploadFile) (r : main.AudioResponse) :
  snd (main.search_by_audio s db file) = Ok r ->
  exists fs1 : main.FileSystem,
    match main.audio_to_contour fs1 (path_join main.temp_dir (main.filename file)) with
    | Some (String c rest) =>
        r = {| main.generated_contour := Some (String c rest);
               main.audio_results :=
                 map main.serialize_doc
                   (firstn 10
                      (filter (fun doc => regex_search_i (String c rest)
                                            (melodic_contour doc)) db)) |}
    | _ => r = {| main.generated_contour := None; main.audio_results := [] |}
    end.
Proof.
  unfold main.search_by_audio, main.search_by_audio_try.
  destruct (main.os_makedirs s main.temp_dir) as [s0 [made|e]]; [|discriminate].
  destruct (main.read file) as [contents|e].
  2:{ destruct (main.search_by_audio_finally _ _) as [s2 [cleaned|e']]; discriminate. }
  destruct (main.write_file _ _ _) as [s1 [wrote|e]].
  2:{ destruct (main.search_by_audio_finally _ _) as [s2 [cleaned|e']]; discriminate. }
  destruct (main.search_by_audio_finally _ _) as [s2 [cleaned|e']]; [|discriminate].
  cbn [snd]. intros Hr. exists (main.files s1).
  assert (Heq : forall a b : main.AudioResponse, Ok a = Ok b :> result _ -> b = a)
    by (intros a b Hab; now injection Hab).
  destruct (main.audio_to_contour _ _) as [[|c rest]|].
  - now apply Heq.
  - rewrite find_for_contour in Hr. now apply Heq.
  - now apply Heq.
Qed.

(** An upload that cannot be read gets no response, and neither does
    one that cannot be written. *)
Lemma search_by_audio_unread (s : main.os_state) (db : Collection)
    (file : main.UploadFile) (e : exn) :
  main.read file = Raise e ->
  exists e' : exn, snd (main.search_by_audio s db file) = Raise e'.
Proof.
  intros Hread. unfold main.search_by_audio, main.search_by_audio_try.
  destruct (main.os_makedirs s main.temp_dir) as [s0 [made|e0]]; [|now exists e0].
  rewrite Hread.
  destruct (main.search_by_audio_finally _ _) as [s2 [cleaned|e']];
    [now exists e|now exists e'].
Qed.

Lemma search_by_audio_unwritten (s s0 s1 : main.os_state) (db : Collection)
    (file : main.UploadFile) (contents : list Byte.byte) (e : exn) :
  main.os_makedirs s main.temp_dir = (s0, Ok tt) ->
  main.read file = Ok contents ->
  main.write_file s0 (path_join main.temp_dir (main.filename file)) contents
  = (s1, Raise e) ->
  exists e' : exn, snd (main.search_by_audio s db file) = Raise e'.
Proof.
  intros Hmade Hread Hwrite. unfold main.search_by_audio, main.search_by_audio_try.
  rewrite Hmade, Hread, Hwrite.
  destruct (main.search_by_audio_finally _ _) as [s2 [cleaned|e']];
    [now exists e|now exists e'].
Qed.

Context `{W : !OsLaws}.

(** After a [finally] clause that completes there is nothing to read at
    the path. *)
Lemma finally_leaves_nothing (s s' : main.os_state) (file_path : string) :
  main.search_by_audio_finally s file_path = (s', Ok tt) ->
  main.files s' file_path = None.
Proof.
  unfold main.search_by_audio_finally.
  destruct (main.os_path_exists s file_path) eqn:Hexists.
  - apply removed.
  - intros [= <-]. now apply absent.
Qed.

Lemma search_by_audio_leaves_nothing (s : main.os_state) (db : Collection)
    (file : main.UploadFile) (r : main.AudioResponse) :
  snd (main.search_by_audio s db file) = Ok r ->
  main.files (fst (main.search_by_audio s db file))
    (path_join main.temp_dir (main.filename file)) = None.
Proof.
  unfold main.search_by_audio.
  destruct (main.os_makedirs s main.temp_dir) as [s0 [made|e]]; [|discriminate].
  destruct (main.search_by_audio_try _ _ _) as [s1 tried].
  destruct (main.search_by_audio_finally _ _) as [s2 [[]|e']] eqn:Hfinally;
    [|discriminate].
  intros _. cbn [fst]. now apply (finally_leaves_nothing s1).
Qed.

End Endpoint.

(** The stand-in for the operating system keeps the laws. *)
Lemma demo_os_laws : OsLaws (O := demo_os).
Proof.
  split.
  - intros s s' path. cbn [main.os_remove demo_os]. unfold demo_remove.
    destruct (main.path_exists s path); [|discriminate].
    intros [= <-]. cbn [main.files demo_os]. unfold without_file.
    now rewrite String.eqb_refl.
  - intros s path. cbn [main.os_path_exists main.files demo_os].
    unfold main.path_exists. now destruct (s path).
Qed.



(** An upload that does not decode, and an empty one. *)
Example undecodable_upload :
  snd (main.search_by_audio (L := demo_librosa) (O := demo_os) no_files
         [demo_doc "a" "*UUD"]
         {| main.filename := "noise.bin"; main.read := Ok [Byte.x01; Byte.xff] |})
  = Ok {| main.generated_contour := None; main.audio_results := [] |}
  /\ snd (main.search_by_audio (L := demo_librosa) (O := demo_os) no_files
            [demo_doc "a" "*UUD"]
            {| main.filename := "empty.wav"; main.read := Ok [] |})
     = Ok {| main.generated_contour := None; main.audio_results := [] |}.
Proof. split; vm_compute; reflexivity. Qed.

(** An upload that cannot be saved is another matter: the exception of
    [open] is raised by the endpoint, whatever the audio; so is an
    exception of [file.read()]. *)
Example unsaved_upload_raises :
  snd (main.search_by_audio (L := demo_librosa) (O := demo_os) no_files
         [demo_doc "a" "*UUD"]
         {| main.filename := "sub/hum.wav"; main.read := Ok [] |})
  = Raise FileNotFoundError
  /\ snd (main.search_by_audio (L := demo_librosa) (O := demo_os) no_files
            [demo_doc "a" "*UUD"]
            {| main.filename := "hum.wav"; main.read := Raise OSError |})
     = Raise OSError.
Proof. split; vm_compute; reflexivity. Qed.

(** ** C9: result caps *)

(** C9.  A text query returns at most 20 entries, the first 20 matching
    entries of the corpus; an audio query that returns a response returns
    at most 10 entries, the first 10 entries matching the generated
    contour. *)
Theorem result_caps `{L : main.Librosa} `{O : main.Os}
    (fs : main.os_state) (db : Collection) (file : main.UploadFile) (q : string) :
  (exists r : main.ParsonsResponse,
      main.search_by_parsons db q = Ok r
      /\ length (main.results r) <= 20
      /\ main.results r
         = map main.serialize_doc
             (firstn 20 (filter (fun doc => regex_search_i q (melodic_contour doc)) db)))
  /\ (forall r : main.AudioResponse,
         snd (main.search_by_audio fs db file) = Ok r ->
         length (main.audio_results r) <= 10
         /\ (forall c : string,
                main.generated_contour r = Some c ->
                main.audio_results r
                = map main.serialize_doc
                    (firstn 10
                       (filter (fun doc => regex_search_i c (melodic_contour doc)) db)))).
Proof.
  split.
  - eexists. split; [apply search_by_parsons_eq|]. cbn [main.results].
    split; [|reflexivity]. rewrite length_map. apply firstn_le_length.
  - intros r Hr.
    destruct (search_by_audio_response fs db file r Hr) as (fs1 & Hresponse).
    destruct (main.audio_to_contour fs1 _) as [[|ch rest]|].
    + rewrite Hresponse. cbn. split; [lia|discriminate].
    + remember (firstn 10 _) as found eqn:Hdef in Hresponse.
      assert (Hfound : length found <= 10)
        by (rewrite Hdef; apply firstn_le_length).
      rewrite Hresponse.
      cbn [main.audio_results main.generated_contour]. split.
      * now rewrite length_map.
      * intros c [= <-]. now rewrite Hdef.
    + rewrite Hresponse. cbn. split; [lia|discriminate].
Qed.

(** On a corpus of 25 entries that all match, the text query returns 20
    entries and the audio query 10. *)
Lemma result_caps_witness :
  let db := repeat (demo_doc "a" "*UDU") 25 in
  let file := {| main.filename := "hum.wav";
                 main.read := Ok [Byte.x01; Byte.x03; Byte.x01] |} in
  (exists r : main.ParsonsResponse,
      main.search_by_parsons db "UD" = Ok r
      /\ length (main.results r) <= 20
      /\ length (main.results r) = 20)
  /\ (exists r : main.AudioResponse,
         snd (main.search_by_audio (L := demo_librosa) (O := demo_os) no_files db file)
         = Ok r
         /\ main.generated_contour r = Some "*UD"%string
         /\ length (main.audio_results r) <= 10
         /\ length (main.audio_results r) = 10).
Proof.
  intros db file.
  destruct (result_caps (L := demo_librosa) (O := demo_os) no_files db file "UD")
    as ((r & Hr & Hcap & Hres) & Haudio).
  split.
  - exists r. split; [exact Hr|]. split; [exact Hcap|].
    rewrite Hres. vm_compute. reflexivity.
  - eexists. split; [vm_compute; reflexivity|].
    split; [reflexivity|].
    split; [|vm_compute; reflexivity].
    apply (Haudio _ ltac:(vm_compute; reflexivity)).
Defined.

(* ================================================================== *)
(** * Part IV: further properties of the code *)
(* ================================================================== *)

(** ** The encoder under transposition and on prefixes *)

Lemma symbol_at_map {P Q : Type} `{Pitch P} `{Pitch Q} (f : P -> Q) (notes : list P) :
  (forall a b : P, pitch_gt (f a) (f b) = pitch_gt a b) ->
  (forall a b : P, pitch_lt (f a) (f b) = pitch_lt a b) ->
  forall i : nat, symbol_at (map f notes) i = symbol_at notes i.
Proof.
  intros Hgt Hlt i. unfold symbol_at. rewrite !nth_error_map.
  destruct (nth_error notes i) as [cur|]; [|reflexivity].
  destruct (nth_error notes (i - 1)) as [prev|]; [|reflexivity].
  simpl. unfold direction. now rewrite Hgt, Hlt.
Qed.

Lemma encoding_map {P Q : Type} `{Pitch P} `{Pitch Q} (f : P -> Q) (notes : list P) :
  (forall a b : P, pitch_gt (f a) (f b) = pitch_gt a b) ->
  (forall a b : P, pitch_lt (f a) (f b) = pitch_lt a b) ->
  encoding (map f notes) = encoding notes.
Proof.
  intros Hgt Hlt. unfold encoding. rewrite length_map. do 2 f_equal.
  apply map_ext. intros i. now apply symbol_at_map.
Qed.

Lemma encoding_shift (k : Z) (notes : list Z) :
  encoding (map (fun n => (n + k)%Z) notes) = encoding notes.
Proof.
  apply encoding_map; intros a b; simpl.
  - destruct (Z.ltb_spec (b + k) (a + k)), (Z.ltb_spec b a); try reflexivity; lia.
  - destruct (Z.ltb_spec (a + k) (b + k)), (Z.ltb_spec a b); try reflexivity; lia.
Qed.

Lemma note_on_count_transpose (k : Z) (track : ingest.MidiTrack) :
  ingest.note_on_count (map (transpose_message k) track) = ingest.note_on_count track.
Proof.
  unfold ingest.note_on_count. induction track as [|msg track IH]; [reflexivity|].
  destruct msg; simpl in *; congruence.
Qed.

Lemma sounding_notes_transpose (k : Z) (track : ingest.MidiTrack) :
  sounding_notes (map (transpose_message k) track)
  = map (fun n => (n + k)%Z) (sounding_notes track).
Proof.
  induction track as [|msg track IH]; [reflexivity|].
  destruct msg as [note velocity| |]; simpl; try assumption.
  destruct (0 <? velocity)%Z; simpl; congruence.
Qed.

Lemma fold_max_pick_map {A : Type} (key : A -> nat) (f : A -> A) (rest : list A) (x : A) :
  (forall a, key (f a) = key a) ->
  fold_left (max_pick key) (map f rest) (f x) = f (fold_left (max_pick key) rest x).
Proof.
  intros Hkey. revert x. induction rest as [|y rest IH]; intros x; [reflexivity|].
  simpl. rewrite <- IH. f_equal. unfold max_pick. rewrite !Hkey.
  now destruct (key x <? key y).
Qed.

Lemma max_by_transpose (k : Z) (tracks : list ingest.MidiTrack) :
  max_by ingest.note_on_count (map (map (transpose_message k)) tracks)
  = match max_by ingest.note_on_count tracks with
    | Ok track => Ok (map (transpose_message k) track)
    | Raise e => Raise e
    end.
Proof.
  destruct tracks as [|x rest]; [reflexivity|]. simpl. f_equal.
  apply fold_max_pick_map. apply note_on_count_transpose.
Qed.

(** X1.  Transposition leaves the contour unchanged: moving every note
    of a list, or every note message of a MIDI file, by the same number
    of semitones gives the same result of [notes_to_contour] and of
    [midi_to_contour]. *)
Theorem contour_is_transposition_invariant
    (k : Z) (notes : list Z) (mid : ingest.MidiFile) :
  main.notes_to_contour (map (fun n => (n + k)%Z) notes) = main.notes_to_contour notes
  /\ ingest.midi_to_contour (Ok (transpose k mid)) = ingest.midi_to_contour (Ok mid).
Proof.
  split.
  - rewrite !notes_to_contour_eq, length_map. now rewrite encoding_shift.
  - destruct (max_by ingest.note_on_count (ingest.tracks mid)) as [track|e] eqn:Hmax.
    + rewrite (midi_to_contour_of_track mid track Hmax).
      rewrite (midi_to_contour_of_track (transpose k mid) (map (transpose_message k) track)).
      * rewrite !collect_notes_eq, sounding_notes_transpose, length_map.
        now rewrite encoding_shift.
      * unfold transpose. simpl. now rewrite max_by_transpose, Hmax.
    + unfold ingest.midi_to_contour, ingest.midi_to_contour_body, transpose. simpl.
      rewrite max_by_transpose, Hmax. reflexivity.
Qed.

Lemma string_of_list_ascii_app (a b : list ascii) :
  string_of_list_ascii (a ++ b)
  = (string_of_list_ascii a ++ string_of_list_ascii b)%string.
Proof. induction a as [|c a IH]; simpl; [reflexivity|now rewrite IH]. Qed.

Lemma symbol_at_firstn {P : Type} `{Pitch P} (notes : list P) (k i : nat) :
  i < k -> symbol_at (firstn k notes) i = symbol_at notes i.
Proof.
  intros Hi. unfold symbol_at. rewrite !nth_error_firstn.
  replace (i <? k) with true by (symmetry; apply Nat.ltb_lt; lia).
  replace (i - 1 <? k) with true by (symmetry; apply Nat.ltb_lt; lia).
  reflexivity.
Qed.

Lemma encoding_firstn {P : Type} `{Pitch P} (notes : list P) (k : nat) :
  1 <= k <= length notes ->
  encoding notes
  = (encoding (firstn k notes)
     ++ string_of_list_ascii (map (symbol_at notes) (seq k (length notes - k))))%string.
Proof.
  intros Hk. unfold encoding.
  rewrite length_firstn, Nat.min_l by lia.
  replace (length notes - 1) with ((k - 1) + (length notes - k)) by lia.
  rewrite seq_app, map_app. replace (1 + (k - 1)) with k by lia.
  change ("*"%char :: ?a ++ ?b) with (("*"%char :: a) ++ b).
  rewrite string_of_list_ascii_app. do 3 f_equal.
  apply map_ext_in. intros i Hi. apply in_seq in Hi.
  symmetry. apply symbol_at_firstn. lia.
Qed.

(** X2.  The contour of the first [k >= 2] notes of a sequence is the
    first [k] characters of the contour of the whole sequence: a symbol
    depends only on the note and its predecessor. *)
Theorem contour_of_prefix {P : Type} `{Pitch P} (notes : list P) (k : nat) :
  2 <= k <= length notes ->
  exists c_prefix c_full rest : string,
    main.notes_to_contour (firstn k notes) = Ok (Some c_prefix)
    /\ main.notes_to_contour notes = Ok (Some c_full)
    /\ c_full = (c_prefix ++ rest)%string
    /\ String.length c_prefix = k.
Proof.
  intros Hk.
  exists (encoding (firstn k notes)), (encoding notes),
    (string_of_list_ascii (map (symbol_at notes) (seq k (length notes - k)))).
  assert (Hlen : length (firstn k notes) = k)
    by (rewrite length_firstn; lia).
  repeat split.
  - rewrite notes_to_contour_eq, Hlen.
    replace (k <? 2) with false by (symmetry; apply Nat.ltb_ge; lia). reflexivity.
  - rewrite notes_to_contour_eq.
    replace (length notes <? 2) with false by (symmetry; apply Nat.ltb_ge; lia).
    reflexivity.
  - apply encoding_firstn. lia.
  - rewrite encoding_length; lia.
Qed.

Lemma contour_of_prefix_witness :
  2 <= 3 <= length [60; 62; 64; 63]%Z
  /\ exists c_prefix c_full rest : string,
      main.notes_to_contour (firstn 3 [60; 62; 64; 63]%Z) = Ok (Some c_prefix)
      /\ main.notes_to_contour [60; 62; 64; 63]%Z = Ok (Some c_full)
      /\ c_full = (c_prefix ++ rest)%string
      /\ String.length c_prefix = 3.
Proof.
  split; [simpl; lia|].
  apply (contour_of_prefix [60; 62; 64; 63]%Z 3). simpl; lia.
Defined.

(** ** What [midi_to_contour] returns *)

Lemma symbol_at_not_star {P : Type} `{Pitch P} (notes : list P) (i : nat) :
  symbol_at notes i <> "*"%char.
Proof.
  unfold symbol_at, direction.
  destruct (nth_error notes i); [|discriminate].
  destruct (nth_error notes (i - 1)); [|discriminate].
  destruct (pitch_gt _ _); [discriminate|].
  destruct (pitch_lt _ _); discriminate.
Qed.

Lemma encoding_star_only_first {P : Type} `{Pitch P} (notes : list P) (i : nat) :
  1 <= i -> String.get i (encoding notes) <> Some "*"%char.
Proof.
  intros Hi. unfold encoding. rewrite get_of_list_ascii.
  destruct i as [|j]; [lia|]. simpl. rewrite nth_error_map.
  destruct (nth_error (seq 1 (length notes - 1)) j) as [n|]; simpl; [|discriminate].
  intros [= Hstar]. now apply (symbol_at_not_star notes n).
Qed.

Lemma midi_to_contour_Some (parsed : result ingest.MidiFile) (c : string) :
  ingest.midi_to_contour parsed = Some c ->
  exists (mid : ingest.MidiFile) (track : ingest.MidiTrack),
    parsed = Ok mid
    /\ max_by ingest.note_on_count (ingest.tracks mid) = Ok track
    /\ 2 <= length (sounding_notes track)
    /\ c = encoding (sounding_notes track).
Proof.
  destruct parsed as [mid|e]; [|discriminate].
  destruct (max_by ingest.note_on_count (ingest.tracks mid)) as [track|e] eqn:Hmax.
  - rewrite (midi_to_contour_of_track mid track Hmax), collect_notes_eq.
    destruct (length (sounding_notes track) <? 2) eqn:Hlen; [discriminate|].
    intros [= <-]. apply Nat.ltb_ge in Hlen. now exists mid, track.
  - unfold ingest.midi_to_contour, ingest.midi_to_contour_body. simpl.
    rewrite Hmax. discriminate.
Qed.

(** X3.  A contour returned by [midi_to_contour] is the encoding of the
    notes the melody track sounds: it has one character per sounded note,
    at least two, it consists of the four contour symbols, and [*] is its
    first character and occurs nowhere else in it. *)
Theorem midi_contour_is_well_formed (parsed : result ingest.MidiFile) (c : string) :
  ingest.midi_to_contour parsed = Some c ->
  exists (mid : ingest.MidiFile) (track : ingest.MidiTrack),
    parsed = Ok mid
    /\ max_by ingest.note_on_count (ingest.tracks mid) = Ok track
    /\ String.length c = length (sounding_notes track)
    /\ 2 <= String.length c
    /\ is_contour c = true
    /\ String.get 0 c = Some "*"%char
    /\ (forall i : nat, 1 <= i -> String.get i c <> Some "*"%char).
Proof.
  intros Hc.
  destruct (midi_to_contour_Some parsed c Hc) as (mid & track & Hmid & Hmax & Hlen & ->).
  exists mid, track. rewrite encoding_length by lia.
  repeat split; auto.
  - apply encoding_is_contour.
  - intros i Hi. now apply encoding_star_only_first.
Qed.

Lemma midi_contour_is_well_formed_witness :
  let parsed :=
    Ok {| ingest.tracks :=
            [ [ingest.note_on 60 64; ingest.note_off 60 0; ingest.note_on 62 64;
               ingest.note_on 62 0; ingest.note_on 59 70] ] |} in
  ingest.midi_to_contour parsed = Some "*UD"%string
  /\ exists (mid : ingest.MidiFile) (track : ingest.MidiTrack),
      parsed = Ok mid
      /\ max_by ingest.note_on_count (ingest.tracks mid) = Ok track
      /\ String.length "*UD" = length (sounding_notes track)
      /\ 2 <= String.length "*UD"
      /\ is_contour "*UD" = true
      /\ String.get 0 "*UD" = Some "*"%char
      /\ (forall i : nat, 1 <= i -> String.get i "*UD" <> Some "*"%char).
Proof.
  intros parsed. split; [reflexivity|].
  apply (midi_contour_is_well_formed parsed "*UD"). reflexivity.
Defined.

(** X4.  [midi_to_contour] returns [None] exactly when the file does not
    parse, when it has no track, or when its melody track sounds fewer
    than two notes; no exception leaves the function. *)
Theorem midi_to_contour_None_iff (parsed : result ingest.MidiFile) :
  ingest.midi_to_contour parsed = None
  <-> (exists e : exn, parsed = Raise e)
      \/ (exists mid : ingest.MidiFile,
             parsed = Ok mid
             /\ (ingest.tracks mid = []
                 \/ exists track : ingest.MidiTrack,
                     max_by ingest.note_on_count (ingest.tracks mid) = Ok track
                     /\ length (sounding_notes track) < 2)).
Proof.
  destruct parsed as [mid|e].
  2:{ split; [intros _; left; now exists e|reflexivity]. }
  destruct (ingest.tracks mid) as [|t rest] eqn:Htracks.
  - split.
    + intros _. right. exists mid. rewrite Htracks. auto.
    + intros _. unfold ingest.midi_to_contour, ingest.midi_to_contour_body. simpl.
      now rewrite Htracks.
  - assert (Hmax : max_by ingest.note_on_count (ingest.tracks mid)
                   = Ok (fold_left (max_pick ingest.note_on_count) rest t))
      by now rewrite Htracks.
    rewrite (midi_to_contour_of_track mid _ Hmax), collect_notes_eq.
    set (track := fold_left (max_pick ingest.note_on_count) rest t) in *.
    destruct (length (sounding_notes track) <? 2) eqn:Hlen.
    + apply Nat.ltb_lt in Hlen. split; [|reflexivity].
      intros _. right. exists mid. split; [reflexivity|]. right.
      exists track. auto.
    + apply Nat.ltb_ge in Hlen. split; [discriminate|].
      intros [(e & He)|(mid' & [= <-] & [Hnil|(track' & Hmax' & Hshort)])].
      * discriminate.
      * rewrite Htracks in Hnil. discriminate.
      * rewrite Hmax in Hmax'. injection Hmax' as <-. lia.
Qed.

(** ** The kept observations *)

Lemma Subsequence_length {A : Type} (kept l : list A) :
  Subsequence kept l -> length kept <= length l.
Proof. induction 1; simpl; lia. Qed.

Lemma segment_from (frames acc kept : list float) :
  for_in frames main.append_if_new acc = Ok kept ->
  exists added : list float,
    kept = acc ++ added
    /\ Subsequence added frames
    /\ (acc = [] -> hd_error kept = hd_error frames).
Proof.
  revert acc. induction frames as [|x frames IH]; intros acc; simpl.
  - intros [= <-]. exists []. rewrite app_nil_r.
    repeat split; [constructor|now intros ->].
  - rewrite append_if_new_eq. simpl.
    destruct (is_new acc x) eqn:Hnew; intros Hrest.
    + destruct (IH _ Hrest) as (added & -> & Hsub & _).
      exists (x :: added). rewrite <- app_assoc. repeat split.
      * now constructor.
      * now intros ->.
    + destruct (IH _ Hrest) as (added & -> & Hsub & _).
      exists added. repeat split.
      * now constructor.
      * intros ->. discriminate.
Qed.

(** X5.  With at least one frequency bin the frame loop of
    [audio_to_contour] does not raise, and what it keeps is a subsequence
    of the stream of frame pitches that begins with the first of them: no
    pitch is invented or reordered, and at most one observation is kept
    per frame. *)
Theorem kept_notes_are_a_subsequence `{L : main.Librosa} (pt : main.Piptrack) :
  main.n_bins pt <> 0 ->
  exists notes : list float,
    for_in (range 0 (main.n_frames pt)) (main.frame_step pt) [] = Ok notes
    /\ Subsequence notes (frame_pitches pt)
    /\ hd_error notes = hd_error (frame_pitches pt)
    /\ length notes <= main.n_frames pt.
Proof.
  intros Hbins. rewrite (frame_loop_is_segment pt Hbins).
  destruct (segment_total (frame_pitches pt)) as (notes & Hnotes).
  exists notes. split; [assumption|].
  destruct (segment_from _ _ _ Hnotes) as (added & -> & Hsub & Hhd).
  simpl. repeat split; auto.
  apply Subsequence_length in Hsub.
  assert (Hframes : length (frame_pitches pt) <= main.n_frames pt).
  { unfold frame_pitches. rewrite length_map.
    eapply Nat.le_trans; [apply filter_length_le|].
    now rewrite length_map, length_seq. }
  lia.
Qed.

Lemma kept_notes_are_a_subsequence_witness :
  let pt := demo_piptrack [60.0; 60.2; 0; 64.0; 63.9]%float in
  main.n_bins pt <> 0
  /\ frame_pitches (L := demo_librosa) pt = [60.0; 60.2; 64.0; 63.9]%float
  /\ exists notes : list float,
      for_in (range 0 (main.n_frames pt)) (main.frame_step (L := demo_librosa) pt) []
      = Ok notes
      /\ Subsequence notes (frame_pitches (L := demo_librosa) pt)
      /\ hd_error notes = hd_error (frame_pitches (L := demo_librosa) pt)
      /\ length notes <= main.n_frames pt.
Proof.
  intros pt.
  assert (Hbins : main.n_bins pt <> 0) by discriminate.
  split; [exact Hbins|]. split; [vm_compute; reflexivity|].
  exact (kept_notes_are_a_subsequence (L := demo_librosa) pt Hbins).
Defined.

(** X6.  Whenever the frame loop returns, every kept observation differs
    from the one kept just before it by more than 0.5 in the arithmetic
    of the code, so the two are ordered: one of [>], [<] holds between
    them. *)
Theorem kept_notes_are_separated `{L : main.Librosa}
    (pt : main.Piptrack) (notes : list float) :
  for_in (range 0 (main.n_frames pt)) (main.frame_step pt) [] = Ok notes ->
  forall (i : nat) (cur prev : float),
    1 <= i -> nth_error notes i = Some cur -> nth_error notes (i - 1) = Some prev ->
    (0.5 <? abs (cur - prev))%float = true
    /\ ((prev <? cur)%float = true \/ (cur <? prev)%float = true).
Proof.
  intros Hloop i cur prev Hi Hcur Hprev.
  assert (Hfar : far_apart cur prev = true)
    by (apply (frame_loop_Separated pt notes Hloop i); assumption).
  split; [exact Hfar|]. exact (far_apart_ordered cur prev Hfar).
Qed.

Lemma kept_notes_are_separated_witness :
  let pt := demo_piptrack [60.0; 60.2; 64.0; 63.9; 63.8]%float in
  for_in (range 0 (main.n_frames pt)) (main.frame_step (L := demo_librosa) pt) []
  = Ok [60.0; 64.0]%float
  /\ (0.5 <? abs (64.0 - 60.0))%float = true
  /\ ((60.0 <? 64.0)%float = true \/ (64.0 <? 60.0)%float = true).
Proof.
  intros pt.
  assert (Hloop : for_in (range 0 (main.n_frames pt))
                    (main.frame_step (L := demo_librosa) pt) []
                  = Ok [60.0; 64.0]%float) by (vm_compute; reflexivity).
  split; [exact Hloop|].
  apply (kept_notes_are_separated (L := demo_librosa) pt _ Hloop 1);
    [lia|reflexivity|reflexivity].
Defined.

(** ** [audio_to_contour] and the audio endpoint *)

(** X7.  For a file that exists, [audio_to_contour] returns [None]
    exactly when the file is empty, does not decode, cannot be tracked,
    makes the frame loop raise, or leaves fewer than two kept
    observations; otherwise it returns the encoding of the kept
    observations. *)
Theorem audio_to_contour_None_iff `{L : main.Librosa}
    (fs : main.FileSystem) (file_path : string) (contents : list Byte.byte) :
  fs file_path = Some contents ->
  (main.audio_to_contour fs file_path = None <-> ExtractionFails contents)
  /\ (forall c : string,
         main.audio_to_contour fs file_path = Some c ->
         exists (y : main.waveform) (pt : main.Piptrack) (notes : list float),
           main.load contents = Ok y /\ main.piptrack y = Ok pt
           /\ for_in (range 0 (main.n_frames pt)) (main.frame_step pt) [] = Ok notes
           /\ 2 <= length notes /\ c = encoding notes).
Proof.
  intros Hfile. split.
  - split.
    + now apply audio_to_contour_None.
    + now apply audio_to_contour_fails.
  - intros c Hc.
    destruct (audio_to_contour_Some fs file_path c Hc)
      as (contents' & y & pt & notes & Hfile' & _ & Hload & Htrack & Hloop & Hlen & ->).
    rewrite Hfile in Hfile'. injection Hfile' as <-.
    now exists y, pt, notes.
Qed.

Lemma audio_to_contour_None_iff_witness :
  let fs := with_file no_files "hum.wav" [Byte.x01; Byte.xff] in
  fs "hum.wav"%string = Some [Byte.x01; Byte.xff]
  /\ (main.audio_to_contour (L := demo_librosa) fs "hum.wav" = None
      <-> ExtractionFails (L := demo_librosa) [Byte.x01; Byte.xff]).
Proof.
  intros fs. split; [reflexivity|].
  apply (audio_to_contour_None_iff (L := demo_librosa) fs "hum.wav"). reflexivity.
Defined.

Lemma encoding_nonempty {P : Type} `{Pitch P} (notes : list P) :
  exists rest : string, encoding notes = String "*" rest.
Proof. unfold encoding. simpl. eauto. Qed.

(** X8.  When the audio endpoint returns a response, the temporary
    file is gone: nothing can be read at the path [file_path] of the
    upload in the state the endpoint leaves, whether extraction
    succeeded or not and whether a file was there before or not.  This
    holds in a file system in which a completed [os.remove] leaves
    nothing to read at its path and there is nothing to read at a path
    that does not exist ([OsLaws]); nothing is said of other paths.  An
    upload that cannot be read, or cannot be written to [file_path],
    gets no response: the endpoint raises. *)
Theorem search_by_audio_cleans_up `{L : main.Librosa} `{O : main.Os} `{W : !OsLaws}
    (s : main.os_state) (db : Collection) (file : main.UploadFile) :
  (forall r : main.AudioResponse,
      snd (main.search_by_audio s db file) = Ok r ->
      main.files (fst (main.search_by_audio s db file))
        (path_join main.temp_dir (main.filename file)) = None)
  /\ (forall e : exn,
         main.read file = Raise e ->
         exists e' : exn, snd (main.search_by_audio s db file) = Raise e')
  /\ (forall (s0 s1 : main.os_state) (contents : list Byte.byte) (e : exn),
         main.os_makedirs s main.temp_dir = (s0, Ok tt) ->
         main.read file = Ok contents ->
         main.write_file s0 (path_join main.temp_dir (main.filename file)) contents
         = (s1, Raise e) ->
         exists e' : exn, snd (main.search_by_audio s db file) = Raise e').
Proof.
  split; [|split].
  - apply search_by_audio_leaves_nothing.
  - intros e. apply search_by_audio_unread.
  - intros s0 s1 contents e. apply search_by_audio_unwritten.
Qed.

(** A file of an earlier upload is at the path already; after the
    response it is gone. *)
Lemma search_by_audio_cleans_up_witness :
  let fs := with_file no_files "temp_audio/hum.wav" [Byte.x41] in
  let file := {| main.filename := "hum.wav"; main.read := Ok [Byte.x01; Byte.x03] |} in
  let r := {| main.generated_contour := Some "*U"%string; main.audio_results := [] |} in
  fs "temp_audio/hum.wav"%string = Some [Byte.x41]
  /\ snd (main.search_by_audio (L := demo_librosa) (O := demo_os) fs [] file) = Ok r
  /\ fst (main.search_by_audio (L := demo_librosa) (O := demo_os) fs [] file)
       "temp_audio/hum.wav"%string
     = None.
Proof.
  intros fs file r.
  assert (Hr : snd (main.search_by_audio (L := demo_librosa) (O := demo_os) fs [] file)
               = Ok r) by (vm_compute; reflexivity).
  destruct (search_by_audio_cleans_up (L := demo_librosa) (O := demo_os)
              (W := demo_os_laws) fs [] file) as (Hgone & _ & _).
  split; [reflexivity|]. split; [exact Hr|].
  exact (Hgone r Hr).
Defined.

Lemma firstn_10_of_20 {A : Type} (l : list A) :
  firstn 10 (firstn 20 l) = firstn 10 l.
Proof. rewrite firstn_firstn. reflexivity. Qed.

(** X9.  When the upload is read, saved as the temporary file and read
    back from it, the extraction from its bytes does not fail, and the
    temporary file is removed, the audio endpoint answers with the
    contour [audio_to_contour] produced from the saved file, and its
    results are the first 10 of the results the text endpoint returns
    for that contour. *)
Theorem audio_search_is_text_search_of_contour `{L : main.Librosa} `{O : main.Os}
    (s s0 s1 s2 : main.os_state) (db : Collection) (file : main.UploadFile)
    (contents : list Byte.byte) :
  main.os_makedirs s main.temp_dir = (s0, Ok tt) ->
  main.read file = Ok contents ->
  main.write_file s0 (path_join main.temp_dir (main.filename file)) contents
  = (s1, Ok tt) ->
  main.files s1 (path_join main.temp_dir (main.filename file)) = Some contents ->
  main.search_by_audio_finally s1 (path_join main.temp_dir (main.filename file))
  = (s2, Ok tt) ->
  ~ ExtractionFails contents ->
  exists (c : string) (r : main.AudioResponse) (r' : main.ParsonsResponse),
    main.audio_to_contour (main.files s1)
      (path_join main.temp_dir (main.filename file))
    = Some c
    /\ main.search_by_audio s db file = (s2, Ok r)
    /\ main.generated_contour r = Some c
    /\ main.search_by_parsons db c = Ok r'
    /\ main.audio_results r = firstn 10 (main.results r').
Proof.
  intros Hmade Hread Hwrite Hfile Hfinally Hok.
  set (file_path := path_join main.temp_dir (main.filename file)) in *.
  pose proof (search_by_audio_run s s0 s1 s2 db file contents
                Hmade Hread Hwrite Hfinally) as Hrun.
  fold file_path in Hrun.
  destruct (main.audio_to_contour (main.files s1) file_path) as [c|] eqn:Hc.
  2:{ contradict Hok. now apply (audio_to_contour_None (main.files s1) file_path). }
  destruct (audio_to_contour_Some (main.files s1) file_path c Hc)
    as (_ & _ & _ & notes & _ & _ & _ & _ & _ & _ & Hnotes).
  destruct (encoding_nonempty notes) as (rest & Hrest).
  rewrite Hnotes, Hrest in Hrun. rewrite Hnotes, Hrest.
  eexists _, _, _. split; [reflexivity|].
  split; [exact Hrun|].
  split; [reflexivity|].
  split; [apply search_by_parsons_eq|].
  cbn [main.audio_results main.results].
  now rewrite <- firstn_map, <- (firstn_map main.serialize_doc 20), firstn_10_of_20.
Qed.

(** A hum of three notes against a corpus of 25 entries that all match:
    the text query for [*UD] returns 20 of them, the audio query the
    first 10 of these. *)
Lemma audio_search_is_text_search_of_contour_witness :
  let file := {| main.filename := "hum.wav";
                 main.read := Ok [Byte.x01; Byte.x03; Byte.x01] |} in
  let db := repeat (demo_doc "a" "*UDU") 25 in
  let saved := with_file no_files "temp_audio/hum.wav" [Byte.x01; Byte.x03; Byte.x01] in
  main.os_makedirs (Os := demo_os) no_files main.temp_dir = (no_files, Ok tt)
  /\ main.read file = Ok [Byte.x01; Byte.x03; Byte.x01]
  /\ main.write_file (Os := demo_os) no_files "temp_audio/hum.wav"
       [Byte.x01; Byte.x03; Byte.x01] = (saved, Ok tt)
  /\ saved "temp_audio/hum.wav"%string = Some [Byte.x01; Byte.x03; Byte.x01]
  /\ main.search_by_audio_finally (O := demo_os) saved "temp_audio/hum.wav"
     = (without_file saved "temp_audio/hum.wav", Ok tt)
  /\ ~ ExtractionFails (L := demo_librosa) [Byte.x01; Byte.x03; Byte.x01]
  /\ exists (r : main.AudioResponse) (r' : main.ParsonsResponse),
      main.audio_to_contour (L := demo_librosa) saved "temp_audio/hum.wav"
      = Some "*UD"%string
      /\ snd (main.search_by_audio (L := demo_librosa) (O := demo_os) no_files db file)
         = Ok r
      /\ main.generated_contour r = Some "*UD"%string
      /\ main.search_by_parsons db "*UD" = Ok r'
      /\ length (main.results r') = 20
      /\ length (main.audio_results r) = 10
      /\ main.audio_results r = firstn 10 (main.results r').
Proof.
  intros file db saved.
  assert (Hok : ~ ExtractionFails (L := demo_librosa) [Byte.x01; Byte.x03; Byte.x01]).
  { intros Hfails.
    pose proof (audio_to_contour_fails (L := demo_librosa)
                  (with_file no_files "hum.wav" [Byte.x01; Byte.x03; Byte.x01])
                  "hum.wav" _ eq_refl Hfails) as Hnone.
    vm_compute in Hnone. discriminate. }
  do 5 (split; [reflexivity|]). split; [exact Hok|].
  destruct (audio_search_is_text_search_of_contour (L := demo_librosa) (O := demo_os)
              no_files no_files saved (without_file saved "temp_audio/hum.wav")
              db file _ eq_refl eq_refl eq_refl eq_refl eq_refl Hok)
    as (c & r & r' & Hc & Hrun & Hgen & Htext & Hres).
  assert (Hcontour : c = "*UD"%string).
  { vm_compute in Hc. injection Hc as <-. reflexivity. }
  subst c.
  exists r, r'. split; [vm_compute; reflexivity|].
  split; [now rewrite Hrun|]. split; [exact Hgen|]. split; [exact Htext|].
  assert (Hlen : length (main.results r') = 20).
  { assert (Hr' : Ok r' = main.search_by_parsons db "*UD") by now rewrite Htext.
    vm_compute in Hr'. injection Hr' as ->. reflexivity. }
  split; [exact Hlen|]. split; [|exact Hres].
  rewrite Hres, length_firstn, Hlen. reflexivity.
Defined.

(** ** An audio query matches from the start of a contour *)

Lemma caseless_symbols_eq (a b : ascii) :
  contour_symbol a = true -> contour_symbol b = true ->
  caseless_eqb a b = true -> a = b.
Proof.
  unfold contour_symbol. simpl. rewrite !orb_true_iff, !Ascii.eqb_eq.
  intros [->|[->|[->|[->|Ha]]]] [->|[->|[->|[->|Hb]]]];
    try discriminate; vm_compute; congruence.
Qed.

Lemma caseless_eqb_refl (a : ascii) : caseless_eqb a a = true.
Proof. unfold caseless_eqb. apply Ascii.eqb_refl. Qed.

Lemma match_here_is_prefix (c s : string) :
  is_contour c = true -> is_contour s = true ->
  match_here c s = String.prefix c s.
Proof.
  unfold is_contour. revert s. induction c as [|a c IH]; intros s.
  { intros _ _. now destruct s. }
  destruct s as [|b s]; [reflexivity|]. simpl.
  rewrite !andb_true_iff. intros (Ha & Hc) (Hb & Hs).
  destruct (ascii_dec a b) as [->|Hab].
  - rewrite caseless_eqb_refl. now apply IH.
  - destruct (caseless_eqb a b) eqn:Heq; [|reflexivity].
    contradict Hab. now apply caseless_symbols_eq.
Qed.

Lemma star_matches_star_only (b : ascii) :
  caseless_eqb "*" b = true -> b = "*"%char.
Proof. each_ascii b. Qed.

Lemma star_not_found (c s : string) :
  (forall i : nat, String.get i s <> Some "*"%char) ->
  regex_search_i (String "*" c) s = false.
Proof.
  induction s as [|b s IH]; intros Hstar; [reflexivity|].
  cbn [regex_search_i match_here].
  destruct (caseless_eqb "*" b) eqn:Hb.
  - apply star_matches_star_only in Hb. subst b. now contradiction (Hstar 0).
  - simpl. apply IH. intros i. apply (Hstar (S i)).
Qed.

(** Between two contours, the search is a test for a prefix. *)
Lemma contour_search_is_prefix {P Q : Type} `{Pitch P} `{Pitch Q}
    (query_notes : list P) (notes : list Q) :
  regex_search_i (encoding query_notes) (encoding notes)
  = String.prefix (encoding query_notes) (encoding notes).
Proof.
  rewrite <- match_here_is_prefix by apply encoding_is_contour.
  destruct (encoding_nonempty query_notes) as (c & Hc).
  destruct (encoding_nonempty notes) as (s & Hs).
  assert (Hstar : forall i : nat, String.get i s <> Some "*"%char).
  { intros i. pose proof (encoding_star_only_first notes (S i)) as Hi.
    rewrite Hs in Hi. apply Hi. lia. }
  rewrite Hc, Hs. cbn [regex_search_i].
  rewrite (star_not_found c s Hstar). apply orb_false_r.
Qed.

(** X10.  On a corpus whose contours were produced by [midi_to_contour],
    an audio query returns the first 10 entries whose contour starts with
    the generated contour: the generated contour begins with [*], which
    occurs in a stored contour at its first position only, so no entry is
    matched from the middle of its melody. *)
Theorem audio_search_is_prefix_search `{L : main.Librosa} `{O : main.Os}
    (fs : main.os_state) (db : Collection) (file : main.UploadFile)
    (r : main.AudioResponse) (c : string) :
  (forall doc, In doc db ->
     exists parsed, ingest.midi_to_contour parsed = Some (melodic_contour doc)) ->
  snd (main.search_by_audio fs db file) = Ok r ->
  main.generated_contour r = Some c ->
  main.audio_results r
  = map main.serialize_doc
      (firstn 10 (filter (fun doc => String.prefix c (melodic_contour doc)) db)).
Proof.
  intros Hdb Hr Hgen.
  destruct (search_by_audio_response fs db file r Hr) as (fs1 & Hresponse).
  destruct (main.audio_to_contour fs1 _) as [c0|] eqn:Hc0.
  2:{ rewrite Hresponse in Hgen. discriminate. }
  destruct (audio_to_contour_Some _ _ c0 Hc0)
    as (_ & _ & _ & notes & _ & _ & _ & _ & _ & _ & Hnotes).
  destruct (encoding_nonempty notes) as (rest & Hrest).
  rewrite Hnotes, Hrest in Hresponse. rewrite <- Hrest in Hresponse.
  assert (Hres : main.audio_results r
                 = map main.serialize_doc
                     (firstn 10
                        (filter (fun doc => regex_search_i (encoding notes)
                                              (melodic_contour doc)) db))
                 /\ main.generated_contour r = Some (encoding notes)).
  { rewrite Hresponse. split; reflexivity. }
  destruct Hres as (-> & Hgen'). rewrite Hgen' in Hgen. injection Hgen as <-.
  do 2 f_equal. apply filter_ext_in. intros doc Hdoc.
  destruct (Hdb doc Hdoc) as (parsed & Hparsed).
  destruct (midi_to_contour_Some parsed _ Hparsed) as (_ & track & _ & _ & _ & ->).
  apply contour_search_is_prefix.
Qed.

(** The hummed contour [*UD] matches the entry that starts with it, not
    the entry that has [UD] further on, which the text query [UD] does
    match. *)
Lemma audio_search_is_prefix_search_witness :
  let first := demo_doc "a" "*UDU" in
  let second := demo_doc "b" "*DUD" in
  let file := {| main.filename := "hum.wav";
                 main.read := Ok [Byte.x01; Byte.x03; Byte.x01] |} in
  let r := {| main.generated_contour := Some "*UD"%string;
              main.audio_results := [main.serialize_doc first] |} in
  (forall doc, In doc [first; second] ->
     exists parsed, ingest.midi_to_contour parsed = Some (melodic_contour doc))
  /\ snd (main.search_by_audio (L := demo_librosa) (O := demo_os) no_files
            [first; second] file) = Ok r
  /\ main.audio_results r
     = map main.serialize_doc
         (firstn 10
            (filter (fun doc => String.prefix "*UD" (melodic_contour doc))
               [first; second]))
  /\ main.search_by_parsons [first; second] "UD"
     = Ok {| main.query := "UD";
             main.results := [main.serialize_doc first; main.serialize_doc second] |}.
Proof.
  intros first second file r.
  assert (Hdb : forall doc, In doc [first; second] ->
            exists parsed, ingest.midi_to_contour parsed = Some (melodic_contour doc)).
  { intros doc [<-|[<-|[]]].
    - now exists (Ok (demo_midi [60; 62; 61; 63]%Z)).
    - now exists (Ok (demo_midi [60; 59; 61; 60]%Z)). }
  assert (Hr : snd (main.search_by_audio (L := demo_librosa) (O := demo_os) no_files
                      [first; second] file) = Ok r)
    by (vm_compute; reflexivity).
  split; [exact Hdb|]. split; [exact Hr|]. split; [|reflexivity].
  exact (audio_search_is_prefix_search (L := demo_librosa) (O := demo_os)
           no_files [first; second] file r "*UD" Hdb Hr eq_refl).
Defined.

(** ** [resolve_composer_only] *)

Lemma COMPOSERS_have_last_names :
  Forall (fun c => last_name c <> None) ingestion.COMPOSERS.
Proof.
  unfold ingestion.COMPOSERS.
  repeat (constructor; [vm_compute; discriminate|]). constructor.
Qed.

Section Resolve.
Context `{E : ingestion.Env}.

Lemma resolve_loop_find (lc : string) (order : list string) :
  Forall (fun c => last_name c <> None) order ->
  ingestion.resolve_loop lc order = Ok (find (mentions lc) order).
Proof.
  induction 1 as [|c order Hc Horder IH]; [reflexivity|].
  cbn [ingestion.resolve_loop find]. rewrite IH.
  assert (Hhead : mentions lc c
                  = match getitem_last (ingestion.split c) with
                    | Ok word => ingestion.str_contains (ingestion.str_lower word) lc
                    | Raise _ => false
                    end).
  { unfold mentions, last_name. now destruct (getitem_last (ingestion.split c)). }
  rewrite Hhead. unfold last_name in Hc.
  destruct (getitem_last (ingestion.split c)) as [word|e]; [|congruence].
  cbn [Py.bind]. now destruct (ingestion.str_contains _ lc).
Qed.

Lemma set_order_has_last_names :
  Permutation ingestion.set_order ingestion.COMPOSERS ->
  Forall (fun c => last_name c <> None) ingestion.set_order.
Proof.
  intros Hperm. apply Permutation_sym in Hperm.
  exact (Permutation_Forall Hperm COMPOSERS_have_last_names).
Qed.

Lemma resolve_composer_only_eq (composer : option string) :
  Permutation ingestion.set_order ingestion.COMPOSERS ->
  ingestion.resolve_composer_only composer
  = Ok (match composer with
        | Some (String ch rest) =>
            find (mentions (ingestion.str_lower (String ch rest))) ingestion.set_order
        | _ => None
        end).
Proof.
  intros Hperm. destruct composer as [[|ch rest]|]; try reflexivity.
  apply resolve_loop_find. now apply set_order_has_last_names.
Qed.

Lemma find_unique {A : Type} (f : A -> bool) (l : list A) (x : A) :
  In x l -> f x = true -> (forall y, In y l -> f y = true -> y = x) ->
  find f l = Some x.
Proof.
  induction l as [|a l IH]; intros Hin Hx Huniq; [contradiction|].
  simpl. destruct (f a) eqn:Ha.
  - f_equal. apply Huniq; [now left|assumption].
  - destruct Hin as [->|Hin]; [congruence|].
    apply IH; auto. intros y Hy. apply Huniq. now right.
Qed.

(** X11.  [resolve_composer_only] never raises.  It answers [None] to
    [None] and to the empty string; an answer [c] is an entry of
    [COMPOSERS] whose lower-cased last word occurs in the lower-cased
    input; and it answers [None] to a non-empty input only when no entry
    of [COMPOSERS] is mentioned in this way. *)
Theorem resolve_composer_only_sound (composer : option string) :
  Permutation ingestion.set_order ingestion.COMPOSERS ->
  exists resolved : option string,
    ingestion.resolve_composer_only composer = Ok resolved
    /\ (ingestion.truthy composer = false -> resolved = None)
    /\ (forall c : string,
           resolved = Some c ->
           In c ingestion.COMPOSERS
           /\ exists s word : string,
               composer = Some s /\ last_name c = Some word
               /\ ingestion.str_contains (ingestion.str_lower word)
                    (ingestion.str_lower s) = true)
    /\ (resolved = None ->
        forall s : string,
          composer = Some s -> s <> EmptyString ->
          forall c : string,
            In c ingestion.COMPOSERS -> mentions (ingestion.str_lower s) c = false).
Proof.
  intros Hperm. eexists. split; [now apply resolve_composer_only_eq|].
  destruct composer as [[|ch rest]|]; cbn [ingestion.truthy].
  - repeat split; try discriminate. intros _ s [= <-] Hs. congruence.
  - split; [discriminate|]. split.
    + intros c Hfind. apply find_some in Hfind as (Hin & Hmentions).
      split; [now apply (Permutation_in c Hperm)|].
      unfold mentions in Hmentions.
      destruct (last_name c) as [word|]; [|discriminate].
      now exists (String ch rest), word.
    + intros Hfind s [= <-] _ c Hc.
      apply (find_none _ _ Hfind).
      apply Permutation_sym in Hperm. now apply (Permutation_in c Hperm).
  - repeat split; try discriminate.
Qed.

(** X12.  When exactly one entry of [COMPOSERS] is mentioned in the
    input, [resolve_composer_only] returns that entry whatever the order
    in which the set is visited.  (With several entries mentioned the
    answer is the one visited first, which the code does not fix.) *)
Theorem resolve_composer_only_unique (s c : string) :
  Permutation ingestion.set_order ingestion.COMPOSERS ->
  s <> EmptyString ->
  In c ingestion.COMPOSERS ->
  mentions (ingestion.str_lower s) c = true ->
  (forall c' : string,
      In c' ingestion.COMPOSERS -> mentions (ingestion.str_lower s) c' = true ->
      c' = c) ->
  ingestion.resolve_composer_only (Some s) = Ok (Some c).
Proof.
  intros Hperm Hs Hc Hmentions Huniq.
  rewrite resolve_composer_only_eq by assumption.
  destruct s as [|ch rest]; [congruence|]. f_equal.
  pose proof (Permutation_sym Hperm) as Hperm'.
  apply find_unique; auto.
  - now apply (Permutation_in c Hperm').
  - intros c' Hc'. apply Huniq. now apply (Permutation_in c' Hperm).
Qed.

End Resolve.

Lemma demo_set_order :
  Permutation (ingestion.set_order (Env := demo_env)) ingestion.COMPOSERS.
Proof. apply Permutation_sym, Permutation_rev. Qed.

Lemma resolve_composer_only_sound_witness :
  Permutation (ingestion.set_order (Env := demo_env)) ingestion.COMPOSERS
  /\ ingestion.resolve_composer_only (E := demo_env) (Some "SCHUBERT, Franz Peter"%string)
     = Ok (Some "Franz Schubert"%string)
  /\ In "Franz Schubert"%string ingestion.COMPOSERS.
Proof.
  pose proof demo_set_order as Hperm.
  destruct (resolve_composer_only_sound (E := demo_env)
              (Some "SCHUBERT, Franz Peter"%string) Hperm)
    as (resolved & Hres & _ & Hsound & _).
  assert (Hval : resolved = Some "Franz Schubert"%string).
  { vm_compute in Hres. now injection Hres as <-. }
  split; [exact Hperm|]. split; [now rewrite Hres, Hval|].
  now apply (Hsound _ Hval).
Defined.

Lemma resolve_composer_only_unique_witness :
  Permutation (ingestion.set_order (Env := demo_env)) ingestion.COMPOSERS
  /\ "J. S. Bach"%string <> EmptyString
  /\ In "Johann Sebastian Bach"%string ingestion.COMPOSERS
  /\ mentions (E := demo_env) (lower "J. S. Bach") "Johann Sebastian Bach" = true
  /\ ingestion.resolve_composer_only (E := demo_env) (Some "J. S. Bach"%string)
     = Ok (Some "Johann Sebastian Bach"%string).
Proof.
  pose proof demo_set_order as Hperm.
  assert (Hin : In "Johann Sebastian Bach"%string ingestion.COMPOSERS)
    by (left; reflexivity).
  split; [exact Hperm|]. split; [discriminate|]. split; [exact Hin|].
  split; [reflexivity|].
  apply (resolve_composer_only_unique (E := demo_env) _ _ Hperm);
    [discriminate|exact Hin|reflexivity|].
  intros c' Hc' Hmentions. unfold ingestion.COMPOSERS in Hc'. simpl in Hc'.
  repeat (destruct Hc' as [<-|Hc'];
          [first [reflexivity|vm_compute in Hmentions; discriminate]|]).
  contradiction.
Defined.

(** ** [populate_database] *)

Section Populate.
Context `{E : ingestion.Env}.

Lemma or_default_nonempty (s : option string) (default : string) :
  default <> EmptyString -> ingestion.or_default s default <> EmptyString.
Proof. destruct s as [[|ch rest]|]; simpl; auto; discriminate. Qed.

(** What one directory does to the collection. *)
Lemma populate_step_Ok (db db' : Collection) (item : ingestion.WalkItem) :
  Permutation ingestion.set_order ingestion.COMPOSERS ->
  ingestion.populate_step db item = Ok db' ->
  db' = db
  \/ (has_both item = true /\ exists doc : Document, db' = db ++ [doc] /\ Ingested doc).
Proof.
  intros Hperm. destruct item as (dirpath, filenames).
  unfold ingestion.populate_step, has_both. cbn [snd].
  destruct (filter (fun f => ingestion.endswith f ".ly") filenames) as [|ly_file ly_rest];
    [intros [= <-]; now left|].
  destruct (filter (fun f => ingestion.endswith f ".mid") filenames)
    as [|mid_file mid_rest]; [intros [= <-]; now left|].
  destruct (ingestion.parse_ly_header _) as [header|e]; cbn [Py.bind]; [|discriminate].
  rewrite resolve_composer_only_eq by assumption. cbn [Py.bind].
  destruct (ingestion.md_composer header) as [[|ch rest]|];
    try (intros [= <-]; now left).
  destruct (find _ ingestion.set_order) as [[|ch' rest']|] eqn:Hfind;
    try (intros [= <-]; now left).
  destruct (ingest.midi_to_contour _) as [[|ch'' rest'']|] eqn:Hcontour;
    try (intros [= <-]; now left).
  intros [= <-]. right. split; [reflexivity|]. eexists. split; [reflexivity|].
  unfold Ingested. cbn [composer title melodic_contour]. repeat split.
  - apply find_some in Hfind as (Hin & _). now apply (Permutation_in _ Hperm).
  - apply or_default_nonempty. discriminate.
  - eexists. exact Hcontour.
Qed.

Lemma populate_loop_Ingested (walk : list ingestion.WalkItem) (db : Collection) :
  Permutation ingestion.set_order ingestion.COMPOSERS ->
  Forall Ingested db -> Forall Ingested (fst (ingestion.populate_loop walk db)).
Proof.
  intros Hperm. revert db. induction walk as [|item walk IH]; intros db Hdb; [assumption|].
  cbn [ingestion.populate_loop].
  destruct (ingestion.populate_step db item) as [db'|e] eqn:Hstep; [|assumption].
  apply IH.
  destruct (populate_step_Ok db db' item Hperm Hstep) as [->|(_ & doc & -> & Hdoc)];
    [assumption|].
  apply Forall_app. split; [assumption|]. now constructor.
Qed.

Lemma populate_loop_length (walk : list ingestion.WalkItem) (db : Collection) :
  Permutation ingestion.set_order ingestion.COMPOSERS ->
  length (fst (ingestion.populate_loop walk db))
  <= length db + length (filter has_both walk).
Proof.
  intros Hperm. revert db. induction walk as [|item walk IH]; intros db; simpl; [lia|].
  destruct (ingestion.populate_step db item) as [db'|e] eqn:Hstep.
  - specialize (IH db').
    destruct (populate_step_Ok db db' item Hperm Hstep) as [->|(Hboth & doc & -> & _)].
    + destruct (has_both item); simpl; lia.
    + rewrite Hboth. rewrite length_app in IH. simpl in *. lia.
  - simpl. lia.
Qed.

Lemma populate_loop_app (before after : list ingestion.WalkItem) (db : Collection) :
  ingestion.populate_loop (before ++ after) db
  = match ingestion.populate_loop before db with
    | (db1, Ok _) => ingestion.populate_loop after db1
    | (db1, Raise e) => (db1, Raise e)
    end.
Proof.
  revert db. induction before as [|item before IH]; intros db; [reflexivity|].
  simpl. destruct (ingestion.populate_step db item) as [db'|e]; [apply IH|reflexivity].
Qed.

(** X13.  Whatever the collection held before and whether the run ends
    or raises, every document [populate_database] leaves in the
    collection has a composer of [COMPOSERS], a non-empty title, and as
    contour the result of [midi_to_contour] on a MIDI file: at least two
    contour symbols, the first of them [*]. *)
Theorem populated_corpus_is_well_formed
    (walk : list ingestion.WalkItem) (db : Collection) (doc : Document) :
  Permutation ingestion.set_order ingestion.COMPOSERS ->
  In doc (fst (ingestion.populate_database walk db)) ->
  In (composer doc) ingestion.COMPOSERS
  /\ title doc <> EmptyString
  /\ (exists mid_path : string,
         ingest.midi_to_contour (ingestion.midi_file mid_path)
         = Some (melodic_contour doc))
  /\ is_contour (melodic_contour doc) = true
  /\ 2 <= String.length (melodic_contour doc)
  /\ String.get 0 (melodic_contour doc) = Some "*"%char.
Proof.
  intros Hperm Hdoc. unfold ingestion.populate_database in Hdoc.
  pose proof (populate_loop_Ingested walk [] Hperm (Forall_nil _)) as Hall.
  rewrite Forall_forall in Hall.
  destruct (Hall doc Hdoc) as (Hcomposer & Htitle & mid_path & Hcontour).
  destruct (midi_to_contour_Some _ _ Hcontour) as (_ & track & _ & _ & Hlen & Henc).
  repeat split; auto.
  - now exists mid_path.
  - rewrite Henc. apply encoding_is_contour.
  - rewrite Henc, encoding_length; lia.
  - rewrite Henc. apply encoding_first.
Qed.

(** X14.  [populate_database] discards what the collection held and
    inserts at most one document per directory that holds both a [.ly]
    and a [.mid] file, and none for any other directory. *)
Theorem populated_corpus_size
    (walk : list ingestion.WalkItem) (db : Collection) :
  Permutation ingestion.set_order ingestion.COMPOSERS ->
  length (fst (ingestion.populate_database walk db))
  <= length (filter has_both walk)
  /\ fst (ingestion.populate_database walk db)
     = fst (ingestion.populate_database walk []).
Proof.
  intros Hperm. split; [|reflexivity].
  apply (populate_loop_length walk [] Hperm).
Qed.

(** X15.  A header that cannot be opened or read stops the whole run:
    [parse_ly_header] does not return for it (its last [print] reads
    [metadata], which was never bound), the exception leaves
    [populate_database], and the collection, emptied at the start, holds
    only the documents of the directories walked before. *)
Theorem unreadable_header_aborts_population
    (before after : list ingestion.WalkItem) (item : ingestion.WalkItem)
    (db db1 : Collection) (ly_path mid_path : string) (e : exn) :
  ingestion.populate_database before db = (db1, Ok tt) ->
  first_with ".ly" item = Some ly_path ->
  first_with ".mid" item = Some mid_path ->
  ingestion.open_read ly_path = Raise e ->
  ingestion.parse_ly_header ly_path = Raise (Exception "UnboundLocalError")
  /\ ingestion.populate_database (before ++ item :: after) db
     = (db1, Raise (Exception "UnboundLocalError")).
Proof.
  intros Hbefore Hly Hmid Hopen.
  assert (Hheader : ingestion.parse_ly_header ly_path
                    = Raise (Exception "UnboundLocalError")).
  { unfold ingestion.parse_ly_header. now rewrite Hopen. }
  split; [exact Hheader|].
  unfold ingestion.populate_database in *.
  rewrite populate_loop_app, Hbefore. cbn [ingestion.populate_loop].
  assert (Hstep : ingestion.populate_step db1 item
                  = Raise (Exception "UnboundLocalError")).
  { destruct item as (dirpath, filenames).
    unfold first_with in Hly, Hmid. cbn [fst snd] in Hly, Hmid.
    unfold ingestion.populate_step.
    destruct (filter (fun f => ingestion.endswith f ".ly") filenames)
      as [|ly_file ly_rest]; [discriminate|].
    destruct (filter (fun f => ingestion.endswith f ".mid") filenames)
      as [|mid_file mid_rest]; [discriminate|].
    injection Hly as Hly. rewrite Hly, Hheader. reflexivity. }
  now rewrite Hstep.
Qed.

(** X16.  When every header it opens can be read, [populate_database]
    ends without raising: neither a header that does not match, nor a
    MIDI file that does not parse, nor an unknown composer stops it. *)
Theorem readable_headers_complete_population
    (walk : list ingestion.WalkItem) (db : Collection) :
  Permutation ingestion.set_order ingestion.COMPOSERS ->
  (forall (item : ingestion.WalkItem) (ly_path : string),
      In item walk -> first_with ".ly" item = Some ly_path ->
      exists content : string, ingestion.open_read ly_path = Ok content) ->
  snd (ingestion.populate_database walk db) = Ok tt.
Proof.
  intros Hperm. unfold ingestion.populate_database. generalize (@nil Document).
  induction walk as [|item walk IH]; intros acc Hread; [reflexivity|].
  cbn [ingestion.populate_loop].
  assert (Hstep : exists acc', ingestion.populate_step acc item = Ok acc').
  { specialize (Hread item). destruct item as (dirpath, filenames).
    unfold first_with in Hread. cbn [fst snd] in Hread.
    unfold ingestion.populate_step.
    destruct (filter (fun f => ingestion.endswith f ".ly") filenames)
      as [|ly_file ly_rest]; [eauto|].
    destruct (filter (fun f => ingestion.endswith f ".mid") filenames)
      as [|mid_file mid_rest]; [eauto|].
    destruct (Hread _ (or_introl eq_refl) eq_refl) as (content & Hcontent).
    unfold ingestion.parse_ly_header. rewrite Hcontent. cbn [Py.bind].
    rewrite resolve_composer_only_eq by assumption. cbn [Py.bind].
    destruct (match ingestion.md_composer _ with Some (String _ _) => _ | _ => None end)
      as [[|ch rest]|]; eauto.
    destruct (ingest.midi_to_contour _) as [[|ch' rest']|]; eauto. }
  destruct Hstep as (acc' & ->). apply IH.
  intros item' ly_path Hin. apply Hread. now right.
Qed.

End Populate.

(** ** The population of the example walk *)

Lemma populated_corpus_is_well_formed_witness :
  Permutation (ingestion.set_order (Env := demo_env)) ingestion.COMPOSERS
  /\ ingestion.populate_database (E := demo_env) [text_dir; bach_dir] [bach_doc; bach_doc]
     = ([bach_doc], Ok tt)
  /\ In (composer bach_doc) ingestion.COMPOSERS
  /\ title bach_doc <> EmptyString
  /\ (exists mid_path : string,
         ingest.midi_to_contour (ingestion.midi_file (Env := demo_env) mid_path)
         = Some (melodic_contour bach_doc))
  /\ is_contour (melodic_contour bach_doc) = true
  /\ 2 <= String.length (melodic_contour bach_doc)
  /\ String.get 0 (melodic_contour bach_doc) = Some "*"%char.
Proof.
  pose proof demo_set_order as Hperm.
  assert (Hrun : ingestion.populate_database (E := demo_env)
                   [text_dir; bach_dir] [bach_doc; bach_doc] = ([bach_doc], Ok tt))
    by (vm_compute; reflexivity).
  split; [exact Hperm|]. split; [exact Hrun|].
  apply (populated_corpus_is_well_formed (E := demo_env)
           [text_dir; bach_dir] [bach_doc; bach_doc] bach_doc Hperm).
  rewrite Hrun. now left.
Defined.

Lemma populated_corpus_size_witness :
  Permutation (ingestion.set_order (Env := demo_env)) ingestion.COMPOSERS
  /\ length (filter has_both [text_dir; bach_dir]) = 1
  /\ length (fst (ingestion.populate_database (E := demo_env)
                    [text_dir; bach_dir] [bach_doc; bach_doc]))
     <= length (filter has_both [text_dir; bach_dir]).
Proof.
  pose proof demo_set_order as Hperm.
  split; [exact Hperm|]. split; [vm_compute; reflexivity|].
  apply (populated_corpus_size (E := demo_env) [text_dir; bach_dir]
           [bach_doc; bach_doc] Hperm).
Defined.

Lemma unreadable_header_aborts_population_witness :
  ingestion.populate_database (E := demo_env) [bach_dir] [] = ([bach_doc], Ok tt)
  /\ first_with ".ly" locked_dir = Some "mutopia_files/locked/suite.ly"%string
  /\ first_with ".mid" locked_dir = Some "mutopia_files/locked/suite.mid"%string
  /\ ingestion.open_read (Env := demo_env) "mutopia_files/locked/suite.ly" = Raise OSError
  /\ ingestion.populate_database (E := demo_env)
       ([bach_dir] ++ locked_dir :: [bach_dir]) []
     = ([bach_doc], Raise (Exception "UnboundLocalError")).
Proof.
  assert (Hbefore : ingestion.populate_database (E := demo_env) [bach_dir] []
                    = ([bach_doc], Ok tt)) by (vm_compute; reflexivity).
  split; [exact Hbefore|]. split; [reflexivity|]. split; [reflexivity|].
  split; [reflexivity|].
  apply (unreadable_header_aborts_population (E := demo_env)
           [bach_dir] [bach_dir] locked_dir [] [bach_doc]
           "mutopia_files/locked/suite.ly" "mutopia_files/locked/suite.mid" OSError
           Hbefore eq_refl eq_refl eq_refl).
Defined.

Lemma readable_headers_complete_population_witness :
  Permutation (ingestion.set_order (Env := demo_env)) ingestion.COMPOSERS
  /\ (forall (item : ingestion.WalkItem) (ly_path : string),
         In item [text_dir; bach_dir] -> first_with ".ly" item = Some ly_path ->
         exists content : string,
           ingestion.open_read (Env := demo_env) ly_path = Ok content)
  /\ snd (ingestion.populate_database (E := demo_env) [text_dir; bach_dir] []) = Ok tt.
Proof.
  pose proof demo_set_order as Hperm.
  assert (Hread : forall (item : ingestion.WalkItem) (ly_path : string),
             In item [text_dir; bach_dir] -> first_with ".ly" item = Some ly_path ->
             exists content : string,
               ingestion.open_read (Env := demo_env) ly_path = Ok content).
  { intros item ly_path [<-|[<-|[]]] [= <-]; eexists; vm_compute; reflexivity. }
  split; [exact Hperm|]. split; [exact Hread|].
  exact (readable_headers_complete_population (E := demo_env)
           [text_dir; bach_dir] [] Hperm Hread).
Defined.

(** ** Longer text queries *)

Lemma lower_app (a b : string) : lower (a ++ b) = (lower a ++ lower b)%string.
Proof. induction a as [|c a IH]; simpl; [reflexivity|now rewrite IH]. Qed.

Lemma string_app_assoc (a b c : string) : ((a ++ b) ++ c = a ++ (b ++ c))%string.
Proof. induction a as [|x a IH]; simpl; [reflexivity|now rewrite IH]. Qed.

Lemma Substring_ci_inner (before q after subject : string) :
  Substring_ci (before ++ q ++ after) subject -> Substring_ci q subject.
Proof.
  intros (pre & post & Hs). rewrite !lower_app in Hs.
  exists (pre ++ lower before)%string, (lower after ++ post)%string.
  rewrite Hs. now rewrite !string_app_assoc.
Qed.

Lemma firstn_short {A : Type} (n : nat) (l : list A) :
  length (firstn n l) < n -> firstn n l = l.
Proof.
  intros Hlen. apply firstn_all2.
  destruct (Nat.le_gt_cases (length l) n) as [Hle|Hgt]; [assumption|].
  rewrite firstn_length_le in Hlen by lia. lia.
Qed.

(** X17.  Lengthening a text query never adds results: when the query
    [q] returns fewer than 20 entries, every entry returned for a query
    that contains [q] is among them. *)
Theorem longer_query_narrows_results
    (db : Collection) (q before after : string)
    (r r' : main.ParsonsResponse) :
  main.search_by_parsons db q = Ok r ->
  main.search_by_parsons db (before ++ q ++ after) = Ok r' ->
  length (main.results r) < 20 ->
  forall doc : Document, In doc (main.results r') -> In doc (main.results r).
Proof.
  intros Hr Hr' Hshort doc Hdoc.
  assert (H1 : main.results r
               = map main.serialize_doc
                   (firstn 20 (filter (fun doc0 => regex_search_i q (melodic_contour doc0))
                                 db))).
  { rewrite search_by_parsons_eq in Hr. injection Hr as <-. reflexivity. }
  assert (H2 : main.results r'
               = map main.serialize_doc
                   (firstn 20 (filter (fun doc0 => regex_search_i (before ++ q ++ after)
                                                     (melodic_contour doc0)) db))).
  { rewrite search_by_parsons_eq in Hr'. injection Hr' as <-. reflexivity. }
  rewrite H1 in Hshort |- *. rewrite H2 in Hdoc. clear H1 H2 Hr Hr'.
  rewrite length_map in Hshort. rewrite (firstn_short 20 _ Hshort).
  apply in_map_iff in Hdoc as (d & <- & Hd). apply in_map.
  assert (Hin : In d (filter (fun doc0 => regex_search_i (before ++ q ++ after)
                                            (melodic_contour doc0)) db)).
  { rewrite <- (firstn_skipn 20). apply in_or_app. now left. }
  apply filter_In in Hin as (Hdb & Hmatch). apply filter_In. split; [assumption|].
  apply regex_search_i_substring. apply regex_search_i_substring in Hmatch.
  now apply (Substring_ci_inner before q after).
Qed.

Lemma longer_query_narrows_results_witness :
  let db := [demo_doc "a" "*UUD"; demo_doc "b" "*DDU"; demo_doc "c" "*UDU"] in
  let r := {| main.query := "UD"%string;
              main.results := [main.serialize_doc (demo_doc "a" "*UUD");
                               main.serialize_doc (demo_doc "c" "*UDU")] |} in
  let r' := {| main.query := "*UDU"%string;
               main.results := [main.serialize_doc (demo_doc "c" "*UDU")] |} in
  main.search_by_parsons db "UD" = Ok r
  /\ main.search_by_parsons db ("*" ++ "UD" ++ "U") = Ok r'
  /\ length (main.results r) < 20
  /\ forall doc : Document, In doc (main.results r') -> In doc (main.results r).
Proof.
  intros db r r'.
  assert (Hr : main.search_by_parsons db "UD" = Ok r) by reflexivity.
  assert (Hr' : main.search_by_parsons db ("*" ++ "UD" ++ "U") = Ok r') by reflexivity.
  assert (Hshort : length (main.results r) < 20) by (simpl; lia).
  split; [exact Hr|]. split; [exact Hr'|]. split; [exact Hshort|].
  exact (longer_query_narrows_results db "UD" "*" "U" r r' Hr Hr' Hshort).
Defined.
